(** * ObjectPool: a generational slot map (src/memory/ObjectPool.hpp)

    A shallow embedding of [yks::ObjectPool<T>] and the verification of its
    handle discipline: round trips, invalidation, the frame property of
    insertion and removal, and the structural invariants tying the roster,
    the dense storage and the back-mapping together.

    Conventions.
    - [size_t] is a 64-bit unsigned integer, carried by [Z]; every
      conversion to a narrower unsigned type is written out as [mod].
    - [std::vector<A>] is [list A]; [v[i]] outside the bounds, [back] and
      [pop_back] on an empty vector are undefined behaviour, and a failed
      [assert] aborts: all of these are the outcome [None] of the option
      monad, so that [Some] means "the call ran to completion". *)

From Stdlib Require Import ZArith Lia.
From stdpp Require Import base option list list_numbers.

Local Open Scope Z_scope.

(** ** Integer types *)

Definition size_bits : Z := 64.
Definition SIZE_MAX : Z := 2 ^ size_bits - 1.
Definition to_size_t (z : Z) : Z := z mod 2 ^ size_bits.

(** Handle.hpp is included by ObjectPool.hpp but its text is not available:
    ObjectPool.hpp only shows that [Handle] has two public integer fields
    [index] and [generation], a two-argument constructor and a default
    constructor.  The two fields are taken to be unsigned integers whose
    widths are parameters of the development, the index field being no
    wider than [size_t]. *)
Class HandleLayout := {
  index_bits : Z;
  generation_bits : Z;
  index_bits_range : 0 < index_bits ≤ size_bits;
  generation_bits_pos : 0 < generation_bits;
}.

Record Handle := mkHandle { index : Z; generation : Z }.

Global Instance Handle_eq_dec : EqDecision Handle.
Proof. solve_decision. Defined.

Definition set_index (i : Z) (e : Handle) : Handle :=
  {| index := i; generation := generation e |}.
Definition set_generation (g : Z) (e : Handle) : Handle :=
  {| index := index e; generation := g |}.

(** ** Vectors *)

Definition vec_size {A} (v : list A) : Z := Z.of_nat (length v).

(** [v[i]] as an rvalue. *)
Definition vec_at {A} (v : list A) (i : Z) : option A :=
  if decide (0 ≤ i) then v !! Z.to_nat i else None.

(** [v[i] = x]. *)
Definition vec_set {A} (v : list A) (i : Z) (x : A) : option (list A) :=
  if decide (0 ≤ i < vec_size v) then Some (<[Z.to_nat i := x]> v) else None.

(** [v[i].field = ...]: an in-place update of one element. *)
Definition vec_update {A} (v : list A) (i : Z) (f : A → A) : option (list A) :=
  e ← vec_at v i; vec_set v i (f e).

Definition vec_back {A} (v : list A) : option A := last v.

Definition vec_pop_back {A} (v : list A) : option (list A) :=
  match v with
  | [] => None
  | _ => Some (take (pred (length v)) v)
  end.

(** [assert(b)]. *)
Definition assert_ (b : bool) : option unit := if b then Some tt else None.

Section ObjectPool.
Context `{L : HandleLayout}.
Context {T : Type}.

Definition index_max : Z := 2 ^ index_bits - 1.
Definition generation_max : Z := 2 ^ generation_bits - 1.

(** Conversions to the types of the two fields of [Handle]. *)
Definition to_index (z : Z) : Z := z mod 2 ^ index_bits.
Definition to_generation (z : Z) : Z := z mod 2 ^ generation_bits.

(** [Handle(index, generation)].  The first argument is a [size_t] at
    every call site and is converted to the type of the field; the second
    is the literal [0] or a value read from a [generation] field, which
    the conversion leaves as it is. *)
Definition Handle_new (i g : Z) : Handle :=
  {| index := to_index i; generation := g |}.

(** Modelled from the spec: the default constructor [Handle()], missing
    with Handle.hpp.  Spec section 3: "a default/empty handle uses a
    sentinel index value that can never be produced by a real allocation";
    the sentinel is the largest value of the index type, the value that
    [SIZE_MAX] converts to. *)
Definition Handle_default : Handle :=
  {| index := index_max; generation := 0 |}.

Record ObjectPool := mkPool {
  first_free_index : Z;     (* in roster *)
  roster : list Handle;     (* used entry: .index is the index into pool;
                               free entry: .index is the next free entry *)
  pool : list T;
  pool_indices : list Z;
}.

(** [ObjectPool()] *)
Definition empty_pool : ObjectPool :=
  {| first_free_index := SIZE_MAX; roster := []; pool := [];
     pool_indices := [] |}.

Definition expand_roster (s : ObjectPool) : option ObjectPool :=
  let new_entry := Handle_new (first_free_index s) 0 in
  let s' := {| first_free_index := vec_size (roster s);
               roster := roster s ++ [new_entry];
               pool := pool s;
               pool_indices := pool_indices s |} in
  assert_ (bool_decide (first_free_index s' < vec_size (roster s')));;
  Some s'.

Definition emplace (v : T) (s : ObjectPool) : option (Handle * ObjectPool) :=
  (* Expand roster if we're out of entries *)
  s ← (if bool_decide (vec_size (roster s) ≤ first_free_index s)
       then expand_roster s else Some s);
  (* Pop head off of free list *)
  let roster_index := first_free_index s in
  e ← vec_at (roster s) roster_index;
  let first_free := index e in
  (* Point roster entry to right place and insert object *)
  r ← vec_update (roster s) roster_index
        (set_index (to_index (vec_size (pool s))));
  e' ← vec_at r roster_index;
  Some (Handle_new roster_index (generation e'),
        {| first_free_index := first_free;
           roster := r;
           pool := pool s ++ [v];
           pool_indices := pool_indices s ++ [roster_index] |}).

(** Checks if object referenced by handle is still in the pool. *)
Definition isValid (s : ObjectPool) (h : Handle) : bool :=
  bool_decide (index h < vec_size (roster s)) &&
  match vec_at (roster s) (index h) with
  | Some e => bool_decide (generation e = generation h)
  | None => false
  end.

Definition remove (h : Handle) (s : ObjectPool) : option ObjectPool :=
  if negb (isValid s h) then Some s else
  (* Indices for object being removed *)
  let roster_index := index h in
  e ← vec_at (roster s) roster_index;
  let pool_index := index e in
  (* Indices for object being moved into its place *)
  moved_roster_index ← vec_back (pool_indices s);
  let moved_pool_index := to_size_t (vec_size (pool s) - 1) in
  em ← vec_at (roster s) moved_roster_index;
  assert_ (bool_decide (index em = moved_pool_index));;
  (* Move last element in place of the removed one, updating roster *)
  r1 ← vec_update (roster s) moved_roster_index
         (set_index (to_index pool_index));
  x ← vec_at (pool s) moved_pool_index;
  p1 ← vec_set (pool s) pool_index x;
  p2 ← vec_pop_back p1;
  m ← vec_at (pool_indices s) moved_pool_index;
  pi1 ← vec_set (pool_indices s) pool_index m;
  pi2 ← vec_pop_back pi1;
  (* Increment generation of removed roster entry and add it to free list *)
  r2 ← vec_update r1 roster_index
         (λ e, set_generation (to_generation (generation e + 1)) e);
  r3 ← vec_update r2 roster_index
         (set_index (to_index (first_free_index s)));
  Some {| first_free_index := roster_index;
          roster := r3;
          pool := p2;
          pool_indices := pi2 |}.

(** [operator[]], in both its const and non-const versions: the outer
    option is the completion of the call, the inner one is the pointer
    ([None] for [nullptr], [Some x] for a pointer to the element [x]). *)
Definition access (s : ObjectPool) (h : Handle) : option (option T) :=
  if isValid s h then
    e ← vec_at (roster s) (index h);
    assert_ (bool_decide (index e < vec_size (pool s)));;
    x ← vec_at (pool s) (index e);
    Some (Some x)
  else Some None.

(** Creates a handle to the object currently at pool[index]. *)
Definition makeHandle (s : ObjectPool) (i : Z) : option Handle :=
  if bool_decide (vec_size (pool s) ≤ i) then Some Handle_default
  else
    ri ← vec_at (pool_indices s) i;
    e ← vec_at (roster s) ri;
    Some (Handle_new i (generation e)).

(** Get index into pool for handle. *)
Definition getPoolIndex (s : ObjectPool) (h : Handle) : option Z :=
  if isValid s h then
    e ← vec_at (roster s) (index h);
    Some (index e)
  else Some SIZE_MAX.

(** *** The free list and occupancy

    The free list is threaded through the [.index] fields of the roster,
    from [first_free_index] on; it ends at the first link that is not a
    roster position.  A walk of [length roster] steps visits every slot
    the list can reach. *)
Fixpoint free_from (fuel : nat) (r : list Handle) (i : Z) : list Z :=
  match fuel with
  | O => []
  | S fuel =>
      match vec_at r i with
      | Some e => i :: free_from fuel r (index e)
      | None => []
      end
  end.

Definition free_slots (s : ObjectPool) : list Z :=
  free_from (length (roster s)) (roster s) (first_free_index s).

(** A roster slot is occupied when it is not on the free list. *)
Definition occupied (s : ObjectPool) (i : Z) : Prop :=
  0 ≤ i < vec_size (roster s) ∧ i ∉ free_slots s.

Global Instance occupied_dec s i : Decision (occupied s i).
Proof. unfold occupied. apply _. Defined.


(** *** Calls and histories *)

Inductive op :=
| Emplace (v : T)
| Remove (h : Handle)
| Access (h : Handle)
| MakeHandle (i : Z)
| GetPoolIndex (h : Handle).

Definition step (o : op) (s : ObjectPool) : option ObjectPool :=
  match o with
  | Emplace v => snd <$> emplace v s
  | Remove h => remove h s
  | Access h => access s h;; Some s
  | MakeHandle i => makeHandle s i;; Some s
  | GetPoolIndex h => getPoolIndex s h;; Some s
  end.

Fixpoint run (ops : list op) (s : ObjectPool) : option ObjectPool :=
  match ops with
  | [] => Some s
  | o :: ops => s' ← step o s; run ops s'
  end.

(** The states a client can bring the pool to: any calls, any arguments. *)
Definition reachable (s : ObjectPool) : Prop :=
  ∃ ops, run ops empty_pool = Some s.

(** The number of [remove] calls of a history whose handle names slot [i]. *)
Fixpoint removals_at (i : Z) (ops : list op) : Z :=
  match ops with
  | [] => 0
  | Remove h :: ops =>
      (if bool_decide (index h = i) then 1 else 0) + removals_at i ops
  | _ :: ops => removals_at i ops
  end.

(** A handle refers to a stored object: it is valid and its slot is
    occupied. *)
Definition live (s : ObjectPool) (h : Handle) : Prop :=
  isValid s h = true ∧ occupied s (index h).

(** A call is tame when
    - [emplace] finds a free slot or a roster that can still grow within
      the range of the index field of a handle, the value [index_max]
      being taken by the end-of-list mark;
    - [remove] gets no handle that passes [isValid] by matching the
      generation kept in a free slot. *)
Definition tame (s : ObjectPool) (o : op) : Prop :=
  match o with
  | Emplace _ =>
      first_free_index s < vec_size (roster s) ∨
      vec_size (roster s) < index_max
  | Remove h => isValid s h = true → occupied s (index h)
  | _ => True
  end.

Global Instance tame_dec s o : Decision (tame s o).
Proof. destruct o; simpl; apply _. Defined.

(** The states reached from the empty pool by tame calls. *)
Inductive regular : ObjectPool → Prop :=
| regular_empty : regular empty_pool
| regular_step s o s' :
    regular s → tame s o → step o s = Some s' → regular s'.

(** [run], refusing the calls that are not tame. *)
Fixpoint run_tame (ops : list op) (s : ObjectPool) : option ObjectPool :=
  match ops with
  | [] => Some s
  | o :: ops =>
      if bool_decide (tame s o) then s' ← step o s; run_tame ops s' else None
  end.

(** Handles as values of their C++ type. *)
Definition typed_handle (h : Handle) : Prop :=
  0 ≤ index h ≤ index_max ∧ 0 ≤ generation h ≤ generation_max.

(** *** Recycling one slot

    [spent g] is a pool whose only slot is free and has generation [g];
    [single v g] is the pool after inserting [v] into it.  [recycle v n g]
    inserts [v] and removes the handle just returned, [n] times over. *)
Definition spent (g : Z) : ObjectPool :=
  {| first_free_index := 0; roster := [mkHandle index_max g]; pool := [];
     pool_indices := [] |}.

Definition single (v : T) (g : Z) : ObjectPool :=
  {| first_free_index := index_max; roster := [mkHandle 0 g]; pool := [v];
     pool_indices := [0] |}.

Fixpoint recycle (v : T) (n : nat) (g : Z) : list op :=
  match n with
  | O => []
  | S n =>
      Emplace v :: Remove (mkHandle 0 g) :: recycle v n (to_generation (g + 1))
  end.

(** *** A pool that has only seen insertions

    [filled vs] is the pool after inserting the values [vs], in this order,
    into the empty pool: slot [i] holds position [i] with generation [0],
    and the free list is empty. *)
Definition filled (vs : list T) : ObjectPool :=
  {| first_free_index := match vs with [] => SIZE_MAX | _ => index_max end;
     roster := (λ i, mkHandle i 0) <$> seqZ 0 (vec_size vs);
     pool := vs;
     pool_indices := seqZ 0 (vec_size vs) |}.

(** The values of unsigned types are not negative. *)
Definition nonneg (s : ObjectPool) : Prop :=
  0 ≤ first_free_index s ∧ ∀ i e, vec_at (roster s) i = Some e → 0 ≤ index e.

(** *** The representation invariant *)

(** The two values that end the free list: [SIZE_MAX], the initial
    [first_free_index], and what it becomes in an [.index] field. *)
Definition is_sentinel (i : Z) : Prop := i = SIZE_MAX ∨ i = index_max.

(** [chain r head fl]: following the links from [head] visits exactly
    the slots [fl], in this order, and then a sentinel. *)
Fixpoint chain (r : list Handle) (head : Z) (fl : list Z) : Prop :=
  match fl with
  | [] => is_sentinel head
  | i :: fl => head = i ∧ ∃ e, vec_at r i = Some e ∧ chain r (index e) fl
  end.

Record wf (s : ObjectPool) (fl : list Z) : Prop := {
  wf_sizes : vec_size (pool s) = vec_size (pool_indices s);
  wf_capacity : vec_size (roster s) ≤ index_max;
  wf_chain : chain (roster s) (first_free_index s) fl;
  wf_nodup : NoDup fl;
  wf_count : Z.of_nat (length fl) + vec_size (pool s) = vec_size (roster s);
  wf_typed : ∀ i e, vec_at (roster s) i = Some e → typed_handle e;
  wf_dense : ∀ p i, vec_at (pool_indices s) p = Some i →
             (i ∉ fl) ∧ ∃ e, vec_at (roster s) i = Some e ∧ index e = p;
  wf_slots : ∀ i, 0 ≤ i < vec_size (roster s) →
             i ∈ fl ∨ ∃ p, vec_at (pool_indices s) p = Some i;
}.

End ObjectPool.

Arguments ObjectPool : clear implicits.
Arguments mkPool {T}.
Arguments op : clear implicits.

(** ** A concrete instance

    The examples below run the pool on integers, with handles whose two
    fields are 16 bits wide. *)
Definition layout16 : HandleLayout.
Proof.
  refine {| index_bits := 16; generation_bits := 16 |}; unfold size_bits; lia.
Defined.

#[global] Existing Instance layout16.

(** Four objects inserted, then the first two removed: slots [0] and [1]
    are free, slot [1] heading the free list with generation [1]. *)
Definition two_of_four : list (op Z) :=
  [Emplace 1; Emplace 2; Emplace 3; Emplace 4;
   Remove (mkHandle 0 0); Remove (mkHandle 1 0)].

Definition two_of_four_state : ObjectPool Z :=
  {| first_free_index := 1;
     roster := [mkHandle 65535 1; mkHandle 0 1; mkHandle 1 0; mkHandle 0 0];
     pool := [4; 3];
     pool_indices := [3; 2] |}.

(** ** Facts about vectors *)

Section vectors.
Context {A : Type}.
Implicit Types (v w : list A) (i j : Z) (x y : A).

Lemma vec_at_Some_lt v i x : vec_at v i = Some x → 0 ≤ i < vec_size v.
Proof.
  unfold vec_at, vec_size. case_decide; [|done].
  intros Hl%lookup_lt_Some. lia.
Qed.

Lemma vec_at_lt v i : 0 ≤ i < vec_size v → ∃ x, vec_at v i = Some x.
Proof.
  unfold vec_at, vec_size. intros [??]. rewrite decide_True by done.
  apply lookup_lt_is_Some. lia.
Qed.

Lemma vec_at_ge v i : vec_size v ≤ i → vec_at v i = None.
Proof.
  intros Hi. destruct (vec_at v i) eqn:E; [|done].
  apply vec_at_Some_lt in E. lia.
Qed.

Lemma vec_at_app_l v w i x : vec_at v i = Some x → vec_at (v ++ w) i = Some x.
Proof.
  unfold vec_at. case_decide; [|done]. intros H1.
  rewrite lookup_app_l; [done|]. by eapply lookup_lt_Some.
Qed.

Lemma vec_at_snoc v x : vec_at (v ++ [x]) (vec_size v) = Some x.
Proof.
  unfold vec_at, vec_size. rewrite decide_True by lia.
  rewrite Nat2Z.id. by rewrite lookup_app_r, Nat.sub_diag by lia.
Qed.

Lemma vec_at_snoc_inv v x i y :
  vec_at (v ++ [x]) i = Some y →
  vec_at v i = Some y ∨ (i = vec_size v ∧ y = x).
Proof.
  unfold vec_at, vec_size. case_decide; [|done].
  intros [?|[? [? ->]%list_lookup_singleton_Some]]%lookup_app_Some; [by left|].
  right. split; [lia|done].
Qed.

Lemma vec_size_snoc v x : vec_size (v ++ [x]) = vec_size v + 1.
Proof. unfold vec_size. rewrite length_app. simpl. lia. Qed.

Lemma vec_set_Some v i x :
  0 ≤ i < vec_size v → vec_set v i x = Some (<[Z.to_nat i := x]> v).
Proof. intros. unfold vec_set. by rewrite decide_True. Qed.

Lemma vec_set_spec v i x v' :
  vec_set v i x = Some v' →
  0 ≤ i < vec_size v ∧ vec_size v' = vec_size v ∧ vec_at v' i = Some x ∧
  ∀ j, j ≠ i → vec_at v' j = vec_at v j.
Proof.
  unfold vec_set. case_decide as Hi; [|done]. intros [= <-].
  split; [done|]. unfold vec_size, vec_at in *.
  rewrite length_insert. split; [done|]. split.
  - rewrite decide_True by lia. apply list_lookup_insert_eq. lia.
  - intros j Hj. case_decide; [|done].
    apply list_lookup_insert_ne. lia.
Qed.

Lemma vec_update_Some v i f e :
  vec_at v i = Some e → ∃ v', vec_update v i f = Some v'.
Proof.
  intros He. unfold vec_update. rewrite He. simpl.
  rewrite vec_set_Some by (by eapply vec_at_Some_lt). eauto.
Qed.

Lemma vec_update_spec v i f v' :
  vec_update v i f = Some v' →
  ∃ e, vec_at v i = Some e ∧ vec_size v' = vec_size v ∧
       vec_at v' i = Some (f e) ∧ ∀ j, j ≠ i → vec_at v' j = vec_at v j.
Proof.
  unfold vec_update. destruct (vec_at v i) as [e|] eqn:He; [|done]. simpl.
  intros (_ & ? & ? & ?)%vec_set_spec. eauto.
Qed.

Lemma vec_back_at v x : vec_back v = Some x ↔ vec_at v (vec_size v - 1) = Some x ∧ 0 < vec_size v.
Proof.
  unfold vec_back, vec_at, vec_size. rewrite last_lookup.
  destruct v as [|a v]; simpl length.
  - simpl. split; [done|]. lia.
  - rewrite decide_True by lia.
    replace (Z.to_nat (Z.of_nat (S (length v)) - 1)) with (pred (S (length v))) by lia.
    split; [intros; split; [done|lia] | by intros [? _]].
Qed.

Lemma vec_pop_back_Some v : 0 < vec_size v → ∃ v', vec_pop_back v = Some v'.
Proof. destruct v; unfold vec_size; simpl; [lia|eauto]. Qed.

Lemma vec_pop_back_spec v v' :
  vec_pop_back v = Some v' →
  0 < vec_size v ∧ vec_size v' = vec_size v - 1 ∧
  ∀ j, j < vec_size v - 1 → vec_at v' j = vec_at v j.
Proof.
  unfold vec_pop_back, vec_size, vec_at. destruct v as [|a v]; [done|].
  intros [= <-]. rewrite length_take. simpl length.
  split; [lia|]. split; [lia|]. intros j Hj.
  case_decide; [|done]. apply lookup_take_lt. lia.
Qed.

End vectors.

(** ** Facts about the integer conversions *)

Section conversions.
Context `{L : HandleLayout}.

Lemma index_mod_pos : 0 < 2 ^ index_bits.
Proof. pose proof index_bits_range. apply Z.pow_pos_nonneg; lia. Qed.

Lemma generation_mod_gt_1 : 1 < 2 ^ generation_bits.
Proof. pose proof generation_bits_pos. apply Z.pow_gt_1; lia. Qed.

Lemma index_max_nonneg : 0 ≤ index_max.
Proof. unfold index_max. pose proof index_mod_pos. lia. Qed.

Lemma index_max_le_SIZE_MAX : index_max ≤ SIZE_MAX.
Proof.
  unfold index_max, SIZE_MAX. pose proof index_bits_range as [??].
  assert (2 ^ index_bits ≤ 2 ^ size_bits) by (apply Z.pow_le_mono_r; lia).
  lia.
Qed.

Lemma to_index_range z : 0 ≤ to_index z ≤ index_max.
Proof.
  unfold to_index, index_max. pose proof index_mod_pos.
  pose proof (Z.mod_pos_bound z (2 ^ index_bits)). lia.
Qed.

Lemma to_index_small z : 0 ≤ z ≤ index_max → to_index z = z.
Proof. unfold to_index, index_max. intros. apply Z.mod_small. lia. Qed.

Lemma to_index_SIZE_MAX : to_index SIZE_MAX = index_max.
Proof.
  unfold to_index, index_max, SIZE_MAX. pose proof index_bits_range as [??].
  pose proof index_mod_pos.
  replace (2 ^ size_bits) with (2 ^ (size_bits - index_bits) * 2 ^ index_bits)
    by (rewrite <- Z.pow_add_r by lia; f_equal; lia).
  assert (0 < 2 ^ (size_bits - index_bits)) by (apply Z.pow_pos_nonneg; lia).
  symmetry. apply (Z.mod_unique_pos _ _ (2 ^ (size_bits - index_bits) - 1)); lia.
Qed.

Lemma to_index_sentinel z : is_sentinel z → to_index z = index_max.
Proof.
  intros [->| ->]; [apply to_index_SIZE_MAX|].
  apply to_index_small. pose proof index_max_nonneg. lia.
Qed.

Lemma sentinel_ge z : is_sentinel z → index_max ≤ z.
Proof. intros [->| ->]; [apply index_max_le_SIZE_MAX|lia]. Qed.

Lemma to_generation_range z : 0 ≤ to_generation z ≤ generation_max.
Proof.
  unfold to_generation, generation_max. pose proof generation_mod_gt_1.
  pose proof (Z.mod_pos_bound z (2 ^ generation_bits)). lia.
Qed.

Lemma to_generation_succ_ne g : to_generation (g + 1) ≠ g.
Proof.
  unfold to_generation. pose proof generation_mod_gt_1.
  intros E. pose proof (Z.mod_pos_bound (g + 1) (2 ^ generation_bits)).
  destruct (decide (g + 1 = 2 ^ generation_bits)) as [Hg|Hg].
  - rewrite Hg, Z.mod_same in E; lia.
  - rewrite Z.mod_small in E; lia.
Qed.


Lemma to_generation_idemp a b :
  to_generation (to_generation a + b) = to_generation (a + b).
Proof. unfold to_generation. apply Zplus_mod_idemp_l. Qed.

Lemma to_generation_succ g :
  0 ≤ g < generation_max → to_generation (g + 1) = g + 1.
Proof. unfold to_generation, generation_max. intros. apply Z.mod_small. lia. Qed.

Lemma to_size_t_small z : 0 ≤ z ≤ SIZE_MAX → to_size_t z = z.
Proof. unfold to_size_t, SIZE_MAX. intros. apply Z.mod_small. lia. Qed.

End conversions.

(** ** What one call does, in any state *)

Section calls.
Context `{L : HandleLayout} {T : Type}.
Implicit Types (s : ObjectPool T) (h e : Handle) (v : T).

Lemma isValid_true s h :
  isValid s h = true ↔
  ∃ e, vec_at (roster s) (index h) = Some e ∧ generation e = generation h.
Proof.
  unfold isValid. rewrite andb_true_iff, bool_decide_eq_true. split.
  - intros [_ H]. destruct (vec_at _ _) as [e|]; [|done].
    apply bool_decide_eq_true in H. eauto.
  - intros (e & He & Hg). rewrite He. split.
    + apply vec_at_Some_lt in He. lia.
    + by apply bool_decide_eq_true.
Qed.

Lemma isValid_false s h e :
  vec_at (roster s) (index h) = Some e → generation e ≠ generation h →
  isValid s h = false.
Proof.
  intros He Hg. apply not_true_is_false. rewrite isValid_true.
  intros (e' & He' & ?). congruence.
Qed.

Lemma emplace_inv v s h s' :
  emplace v s = Some (h, s') →
  ∃ r0 ri e,
    ((vec_size (roster s) ≤ first_free_index s ∧
      r0 = roster s ++ [Handle_new (first_free_index s) 0] ∧
      ri = vec_size (roster s)) ∨
     (first_free_index s < vec_size (roster s) ∧
      r0 = roster s ∧ ri = first_free_index s)) ∧
    vec_at r0 ri = Some e ∧
    h = Handle_new ri (generation e) ∧
    first_free_index s' = index e ∧
    vec_size (roster s') = vec_size r0 ∧
    vec_at (roster s') ri = Some (set_index (to_index (vec_size (pool s))) e) ∧
    (∀ j, j ≠ ri → vec_at (roster s') j = vec_at r0 j) ∧
    pool s' = pool s ++ [v] ∧
    pool_indices s' = pool_indices s ++ [ri].
Proof.
  unfold emplace, expand_roster. intros H.
  case_bool_decide as Hfull; simpl in H.
  - rewrite bool_decide_true in H by (rewrite vec_size_snoc; lia). simpl in H.
    destruct (vec_at _ _) as [e|] eqn:He in H; [|done]. simpl in H.
    destruct (vec_update _ _ _) as [r|] eqn:Hr in H; [|done]. simpl in H.
    apply vec_update_spec in Hr as (e0 & He0 & Hsz & Hri & Hother).
    rewrite Hri in H. simpl in H. injection H as <- <-.
    assert (e0 = e) as -> by congruence.
    eexists _, _, e. split; [left; eauto|]. simpl. eauto 10.
  - destruct (vec_at _ _) as [e|] eqn:He in H; [|done]. simpl in H.
    destruct (vec_update _ _ _) as [r|] eqn:Hr in H; [|done]. simpl in H.
    apply vec_update_spec in Hr as (e0 & He0 & Hsz & Hri & Hother).
    rewrite Hri in H. simpl in H. injection H as <- <-.
    assert (e0 = e) as -> by congruence.
    eexists _, _, e. split; [right; split; [lia|eauto]|]. simpl. eauto 10.
Qed.

Lemma emplace_Some v s :
  0 ≤ first_free_index s → ∃ h s', emplace v s = Some (h, s').
Proof.
  intros Hffi. unfold emplace, expand_roster.
  case_bool_decide as Hfull; simpl.
  - rewrite bool_decide_true by (rewrite vec_size_snoc; lia). simpl.
    rewrite vec_at_snoc. simpl.
    destruct (vec_update_Some (roster s ++ [Handle_new (first_free_index s) 0])
                (vec_size (roster s))
                (set_index (to_index (vec_size (pool s)))) _ (vec_at_snoc _ _))
      as [r Hr].
    rewrite Hr. simpl.
    apply vec_update_spec in Hr as (e0 & He0 & Hsz & Hri & Hother).
    rewrite Hri. simpl. eauto.
  - destruct (vec_at_lt (roster s) (first_free_index s)) as [e He]; [lia|].
    rewrite He. simpl.
    destruct (vec_update_Some (roster s) (first_free_index s)
                (set_index (to_index (vec_size (pool s)))) _ He) as [r Hr].
    rewrite Hr. simpl.
    apply vec_update_spec in Hr as (e0 & He0 & Hsz & Hri & Hother).
    rewrite Hri. simpl. eauto.
Qed.

Lemma assert_Some b : assert_ b = Some tt ↔ b = true.
Proof. destruct b; simpl; split; congruence. Qed.

Lemma remove_invalid s h : isValid s h = false → remove h s = Some s.
Proof. intros H. unfold remove. by rewrite H. Qed.

Lemma remove_inv s h s' :
  isValid s h = true → remove h s = Some s' →
  ∃ e m em x m',
    vec_at (roster s) (index h) = Some e ∧
    generation e = generation h ∧
    vec_back (pool_indices s) = Some m ∧
    vec_at (roster s) m = Some em ∧
    index em = to_size_t (vec_size (pool s) - 1) ∧
    vec_at (pool s) (index em) = Some x ∧
    vec_at (pool_indices s) (index em) = Some m' ∧
    0 ≤ index e < vec_size (pool s) ∧
    0 ≤ index e < vec_size (pool_indices s) ∧
    first_free_index s' = index h ∧
    vec_size (roster s') = vec_size (roster s) ∧
    vec_at (roster s') (index h) =
      Some {| index := to_index (first_free_index s);
              generation := to_generation (generation e + 1) |} ∧
    (∀ j, j ≠ index h →
          vec_at (roster s') j =
            if decide (j = m) then Some (set_index (to_index (index e)) em)
            else vec_at (roster s) j) ∧
    vec_size (pool s') = vec_size (pool s) - 1 ∧
    (∀ j, j < vec_size (pool s) - 1 →
          vec_at (pool s') j =
            if decide (j = index e) then Some x else vec_at (pool s) j) ∧
    vec_size (pool_indices s') = vec_size (pool_indices s) - 1 ∧
    (∀ j, j < vec_size (pool_indices s) - 1 →
          vec_at (pool_indices s') j =
            if decide (j = index e) then Some m'
            else vec_at (pool_indices s) j).
Proof.
  intros Hv H. unfold remove in H. rewrite Hv in H. simpl in H.
  apply bind_Some in H as (e & He & H).
  apply bind_Some in H as (m & Hm & H).
  apply bind_Some in H as (em & Hem & H).
  apply bind_Some in H as ([] & Hassert & H).
  apply bind_Some in H as (r1 & Hr1 & H).
  apply bind_Some in H as (x & Hx & H).
  apply bind_Some in H as (p1 & Hp1 & H).
  apply bind_Some in H as (p2 & Hp2 & H).
  apply bind_Some in H as (m' & Hm' & H).
  apply bind_Some in H as (pi1 & Hpi1 & H).
  apply bind_Some in H as (pi2 & Hpi2 & H).
  apply bind_Some in H as (r2 & Hr2 & H).
  apply bind_Some in H as (r3 & Hr3 & H).
  injection H as <-. simpl.
  apply assert_Some, bool_decide_eq_true in Hassert.
  apply isValid_true in Hv as (e' & He' & Hgen).
  assert (e' = e) as -> by congruence.
  apply vec_update_spec in Hr1 as (em1 & Hem1 & Hsz1 & Hr1m & Hr1o).
  assert (em1 = em) as -> by congruence.
  apply vec_update_spec in Hr2 as (e2 & He2 & Hsz2 & Hr2i & Hr2o).
  apply vec_update_spec in Hr3 as (e3 & He3 & Hsz3 & Hr3i & Hr3o).
  apply vec_set_spec in Hp1 as (Hpr & Hpsz & Hp1i & Hp1o).
  apply vec_pop_back_spec in Hp2 as (_ & Hp2sz & Hp2o).
  apply vec_set_spec in Hpi1 as (Hpir & Hpisz & Hpi1i & Hpi1o).
  apply vec_pop_back_spec in Hpi2 as (_ & Hpi2sz & Hpi2o).
  assert (generation e2 = generation e) as Hg2.
  { destruct (decide (index h = m)) as [<-|Hne].
    - rewrite Hr1m in He2. injection He2 as <-. simpl. congruence.
    - rewrite Hr1o in He2 by done. congruence. }
  exists e, m, em, x, m'. rewrite <- Hassert in *.
  repeat split; try done; try lia.
  - rewrite Hr3i. f_equal. rewrite Hr2i in He3. injection He3 as <-.
    unfold set_index, set_generation. simpl. by rewrite Hg2.
  - intros j Hj. rewrite Hr3o, Hr2o by done. case_decide as Hjm.
    + by subst j.
    + by apply Hr1o.
  - intros j Hj. rewrite Hp2o by lia. case_decide as Hjp.
    + by subst j.
    + by apply Hp1o.
  - intros j Hj. rewrite Hpi2o by lia. case_decide as Hjp.
    + by subst j.
    + by apply Hpi1o.
Qed.

Lemma remove_Some s h e m em :
  vec_at (roster s) (index h) = Some e →
  generation e = generation h →
  vec_back (pool_indices s) = Some m →
  vec_at (roster s) m = Some em →
  index em = vec_size (pool s) - 1 →
  vec_size (pool s) = vec_size (pool_indices s) →
  vec_size (pool s) ≤ SIZE_MAX →
  0 ≤ index e < vec_size (pool s) →
  ∃ s', remove h s = Some s'.
Proof.
  intros He Hg Hm Hem Hlast Hsz Hmax Hp.
  assert (isValid s h = true) as Hv by (apply isValid_true; eauto).
  unfold remove. rewrite Hv. simpl. rewrite He. simpl. rewrite Hm. simpl.
  rewrite Hem. simpl.
  rewrite to_size_t_small by lia.
  rewrite bool_decide_true by done. simpl.
  destruct (vec_update_Some (roster s) m (set_index (to_index (index e))) _ Hem)
    as [r1 Hr1].
  rewrite Hr1. simpl.
  destruct (vec_at_lt (pool s) (vec_size (pool s) - 1)) as [x Hx]; [lia|].
  rewrite Hx. simpl. rewrite vec_set_Some by done. simpl.
  destruct (vec_pop_back_Some (<[Z.to_nat (index e) := x]> (pool s))) as [p2 Hp2].
  { unfold vec_size in *. rewrite length_insert. lia. }
  rewrite Hp2. simpl.
  apply vec_back_at in Hm as [Hm _]. rewrite <- Hsz in Hm. rewrite Hm. simpl.
  rewrite vec_set_Some by lia. simpl.
  destruct (vec_pop_back_Some (<[Z.to_nat (index e) := m]> (pool_indices s)))
    as [pi2 Hpi2].
  { unfold vec_size in *. rewrite length_insert. lia. }
  rewrite Hpi2. simpl.
  apply vec_update_spec in Hr1 as (em1 & Hem1 & Hsz1 & Hr1m & Hr1o).
  destruct (vec_at_lt r1 (index h)) as [e2 He2].
  { rewrite Hsz1. by eapply vec_at_Some_lt. }
  destruct (vec_update_Some r1 (index h)
    (λ e, set_generation (to_generation (generation e + 1)) e) _ He2) as [r2 Hr2].
  rewrite Hr2. simpl.
  apply vec_update_spec in Hr2 as (e2' & He2' & Hsz2 & Hr2i & Hr2o).
  destruct (vec_update_Some r2 (index h)
    (set_index (to_index (first_free_index s))) _ Hr2i) as [r3 Hr3].
  rewrite Hr3. simpl. eauto.
Qed.

End calls.

(** ** The invariant is established and preserved *)

Section invariant.
Context `{L : HandleLayout} {T : Type}.
Implicit Types (s : ObjectPool T) (h e : Handle) (v : T) (fl : list Z).

Lemma chain_at r hd fl i : chain r hd fl → i ∈ fl → ∃ e, vec_at r i = Some e.
Proof.
  revert hd. induction fl as [|k fl IH]; intros hd Hc Hi; [by inversion Hi|].
  destruct Hc as (-> & e & He & Hc).
  apply elem_of_cons in Hi as [->|Hi]; eauto.
Qed.

Lemma chain_frame r r' hd fl :
  chain r hd fl → (∀ i, i ∈ fl → vec_at r' i = vec_at r i) → chain r' hd fl.
Proof.
  revert hd. induction fl as [|k fl IH]; intros hd Hc Hsame; [done|].
  destruct Hc as (-> & e & He & Hc). split; [done|]. exists e. split.
  - rewrite Hsame; [done|]. by left.
  - apply IH; [done|]. intros i Hi. apply Hsame. by right.
Qed.

Lemma chain_empty r hd fl :
  chain r hd fl → vec_size r ≤ index_max → vec_size r ≤ hd →
  fl = [] ∧ is_sentinel hd.
Proof.
  destruct fl as [|k fl]; [done|].
  intros (-> & e & He%vec_at_Some_lt & _) ??. lia.
Qed.

Lemma chain_head r hd fl :
  chain r hd fl → vec_size r ≤ index_max → hd < vec_size r →
  ∃ fl' e, fl = hd :: fl' ∧ vec_at r hd = Some e ∧ chain r (index e) fl'.
Proof.
  destruct fl as [|k fl].
  - intros Hs%sentinel_ge ??. lia.
  - intros (-> & e & He & Hc) ??. eauto.
Qed.

Lemma chain_to_index r hd fl :
  chain r hd fl → vec_size r ≤ index_max → chain r (to_index hd) fl.
Proof.
  destruct fl as [|k fl].
  - intros Hs%to_index_sentinel _. simpl. rewrite Hs. by right.
  - intros (-> & e & He & Hc) Hcap. rewrite to_index_small; [by simpl; eauto|].
    apply vec_at_Some_lt in He. lia.
Qed.

Lemma chain_free_from r hd fl fuel :
  chain r hd fl → vec_size r ≤ index_max → (length fl ≤ fuel)%nat →
  free_from fuel r hd = fl.
Proof.
  intros Hc Hcap. revert hd fl Hc.
  induction fuel as [|fuel IH]; intros hd [|k fl] Hc Hlen; simpl in *;
    try done; try lia.
  - apply sentinel_ge in Hc. rewrite vec_at_ge by lia. done.
  - destruct Hc as (-> & e & He & Hc). rewrite He. f_equal. apply IH; [done|lia].
Qed.

Lemma wf_free_slots s fl : wf s fl → free_slots s = fl.
Proof.
  intros Hwf. unfold free_slots.
  apply chain_free_from; [apply Hwf..|].
  pose proof (wf_count _ _ Hwf). unfold vec_size in *. lia.
Qed.

Lemma wf_pool_le_roster s fl : wf s fl → vec_size (pool s) ≤ vec_size (roster s).
Proof. intros Hwf. pose proof (wf_count _ _ Hwf). lia. Qed.

Lemma wf_empty : wf (empty_pool (T:=T)) [].
Proof.
  pose proof index_max_nonneg.
  split; simpl.
  - done.
  - unfold vec_size. simpl. lia.
  - by left.
  - constructor.
  - done.
  - intros i e Hi%vec_at_Some_lt. unfold vec_size in Hi. simpl in Hi. lia.
  - intros p i Hi%vec_at_Some_lt. unfold vec_size in Hi. simpl in Hi. lia.
  - intros i Hi. unfold vec_size in Hi. simpl in Hi. lia.
Qed.

Lemma emplace_wf s fl v h s' :
  wf s fl →
  first_free_index s < vec_size (roster s) ∨ vec_size (roster s) < index_max →
  emplace v s = Some (h, s') →
  ∃ fl', wf s' fl' ∧
    (fl = index h :: fl' ∨
     (fl = [] ∧ fl' = [] ∧ index h = vec_size (roster s))) ∧
    0 ≤ index h < vec_size (roster s') ∧
    vec_at (roster s') (index h) =
      Some {| index := vec_size (pool s); generation := generation h |} ∧
    (∀ j, j ≠ index h → 0 ≤ j < vec_size (roster s) →
          vec_at (roster s') j = vec_at (roster s) j) ∧
    vec_size (roster s) ≤ vec_size (roster s') ∧
    pool s' = pool s ++ [v] ∧
    pool_indices s' = pool_indices s ++ [index h].
Proof.
  intros Hwf Hroom Hemp.
  pose proof (wf_pool_le_roster _ _ Hwf) as Hle.
  pose proof (wf_capacity _ _ Hwf) as Hcap.
  pose proof (wf_sizes _ _ Hwf) as Hsz.
  apply emplace_inv in Hemp
    as (r0 & ri & e & Hcase & He & -> & Hffi & Hrsz & Hri & Hother & Hpool & Hpi).
  assert (0 ≤ vec_size (pool s)) by (unfold vec_size; lia).
  rewrite (to_index_small (vec_size (pool s))) in Hri by lia.
  destruct Hcase as [(Hfull & -> & ->)|(Hfree & -> & ->)].
  - (* the roster grows by one slot *)
    destruct (chain_empty _ _ _ (wf_chain _ _ Hwf) Hcap Hfull) as [-> Hsent].
    destruct Hroom as [?|Hroom]; [lia|].
    rewrite vec_at_snoc in He. injection He as <-.
    unfold Handle_new in *. simpl in *.
    rewrite (to_index_small (vec_size (roster s))) by lia.
    rewrite to_index_sentinel in Hffi by done.
    rewrite vec_size_snoc in Hrsz.
    exists []. split; [|split_and!; eauto; try lia].
    + split.
      * rewrite Hpool, Hpi, !vec_size_snoc. lia.
      * lia.
      * simpl. rewrite Hffi. by right.
      * constructor.
      * rewrite Hpool, vec_size_snoc. pose proof (wf_count _ _ Hwf). simpl in *. lia.
      * intros j ej Hj. destruct (decide (j = vec_size (roster s))) as [->|Hne].
        -- rewrite Hri in Hj. injection Hj as <-. unfold typed_handle. simpl.
           pose proof generation_mod_gt_1. unfold generation_max. lia.
        -- rewrite Hother in Hj by done.
           apply vec_at_snoc_inv in Hj as [Hj|[? _]]; [|done].
           by eapply wf_typed.
      * intros p i Hp. rewrite Hpi in Hp. split; [by inversion 1|].
        apply vec_at_snoc_inv in Hp as [Hp|[-> ->]].
        -- destruct (wf_dense _ _ Hwf _ _ Hp) as (_ & ei & Hei & <-).
           exists ei. split; [|done]. rewrite Hother.
           ++ by apply vec_at_app_l.
           ++ apply vec_at_Some_lt in Hei. lia.
        -- eexists. split; [done|]. simpl. lia.
      * intros i Hi. right. rewrite Hpi.
        destruct (decide (i = vec_size (roster s))) as [->|Hne].
        -- exists (vec_size (pool_indices s)). apply vec_at_snoc.
        -- destruct (wf_slots _ _ Hwf i) as [Hin|[p Hp]]; [lia|by inversion Hin|].
           exists p. by apply vec_at_app_l.
    + intros j Hj Hjr. rewrite Hother by done.
      destruct (vec_at_lt (roster s) j Hjr) as [ej Hej].
      rewrite Hej. by apply vec_at_app_l.
  - (* the head of the free list is popped *)
    destruct (chain_head _ _ _ (wf_chain _ _ Hwf) Hcap Hfree)
      as (fl' & e' & -> & He' & Hch).
    assert (e' = e) as -> by congruence.
    pose proof (vec_at_Some_lt _ _ _ He) as Hrange.
    pose proof (wf_nodup _ _ Hwf) as [Hnotin Hnd]%NoDup_cons.
    unfold Handle_new in *. simpl in *.
    rewrite (to_index_small (first_free_index s)) by lia.
    exists fl'. split; [|split_and!; eauto; try lia].
    + split.
      * rewrite Hpool, Hpi, !vec_size_snoc. lia.
      * lia.
      * rewrite Hffi. eapply chain_frame; [done|].
        intros i Hi. apply Hother. by intros ->.
      * done.
      * rewrite Hpool, vec_size_snoc. pose proof (wf_count _ _ Hwf). simpl in *. lia.
      * intros j ej Hj. destruct (decide (j = first_free_index s)) as [->|Hne].
        -- rewrite Hri in Hj. injection Hj as <-.
           destruct (wf_typed _ _ Hwf _ _ He) as [_ ?].
           unfold typed_handle. simpl. lia.
        -- rewrite Hother in Hj by done. by eapply wf_typed.
      * intros p i Hp. rewrite Hpi in Hp.
        apply vec_at_snoc_inv in Hp as [Hp|[-> ->]].
        -- destruct (wf_dense _ _ Hwf _ _ Hp) as (Hni & ei & Hei & <-).
           split; [by intros ?; apply Hni; right|].
           exists ei. split; [|done]. rewrite Hother; [done|].
           intros ->. apply Hni. by left.
        -- split; [done|]. eexists. split; [done|]. simpl. lia.
      * intros i Hi. rewrite Hpi.
        destruct (decide (i = first_free_index s)) as [->|Hne].
        -- right. exists (vec_size (pool_indices s)). apply vec_at_snoc.
        -- destruct (wf_slots _ _ Hwf i) as [Hin|[p Hp]]; [lia| |].
           ++ left. apply elem_of_cons in Hin as [?|?]; done.
           ++ right. exists p. by apply vec_at_app_l.
Qed.

(** Removing a handle that names an occupied slot: the call completes, the
    invariant holds again with the slot pushed on the free list, and every
    other occupied slot keeps its generation and its object. *)
Lemma remove_wf s fl h :
  wf s fl → isValid s h = true → index h ∉ fl →
  ∃ s', remove h s = Some s' ∧ wf s' (index h :: fl) ∧
    vec_size (roster s') = vec_size (roster s) ∧
    vec_size (pool s') = vec_size (pool s) - 1 ∧
    (∃ e, vec_at (roster s) (index h) = Some e ∧
          vec_at (roster s') (index h) =
            Some {| index := to_index (first_free_index s);
                    generation := to_generation (generation e + 1) |}) ∧
    (∀ j ej, j ≠ index h → j ∉ fl → vec_at (roster s) j = Some ej →
       ∃ ej', vec_at (roster s') j = Some ej' ∧
              generation ej' = generation ej ∧
              index ej' < vec_size (pool s') ∧
              vec_at (pool s') (index ej') = vec_at (pool s) (index ej)).
Proof.
  intros Hwf Hv Hocc.
  pose proof (wf_pool_le_roster _ _ Hwf) as Hle.
  pose proof (wf_capacity _ _ Hwf) as Hcap.
  pose proof (wf_sizes _ _ Hwf) as Hsz.
  pose proof index_max_le_SIZE_MAX as Hmax.
  pose proof (Hv) as (e & He & Hg)%isValid_true.
  pose proof (vec_at_Some_lt _ _ _ He) as Hri.
  destruct (wf_slots _ _ Hwf _ Hri) as [?|[p Hp]]; [done|].
  destruct (wf_dense _ _ Hwf _ _ Hp) as (_ & e' & He' & Hpe).
  assert (e' = e) as -> by congruence. clear He'.
  pose proof (vec_at_Some_lt _ _ _ Hp) as Hprange.
  destruct (vec_at_lt (pool_indices s) (vec_size (pool_indices s) - 1))
    as [m Hm]; [lia|].
  destruct (wf_dense _ _ Hwf _ _ Hm) as (Hmfree & em & Hem & Hlast).
  assert (vec_back (pool_indices s) = Some m) as Hback
    by (apply vec_back_at; split; [done|lia]).
  destruct (remove_Some s h e m em) as [s' Hrem]; try done; try lia.
  exists s'. split; [done|].
  destruct (remove_inv _ _ _ Hv Hrem)
    as (e0 & m0 & em0 & x & m' & He0 & _ & Hm0 & Hem0 & Hq & Hx & Hm' & _ & _ &
        Hffi & Hrsz & Hrh & Hro & Hpsz & Hpo & Hpisz & Hpio).
  assert (e0 = e) as -> by congruence.
  assert (m0 = m) as -> by congruence.
  assert (em0 = em) as -> by congruence.
  rewrite Hlast, <- Hsz in Hx. rewrite Hlast in Hm'.
  assert (m' = m) as -> by congruence.
  rewrite Hpe in *. rewrite (to_index_small p) in Hro by lia.
  (* slots other than the removed one that own a dense position *)
  assert (∀ q i, vec_at (pool_indices s) q = Some i → q ≠ p → i ≠ index h) as Hne.
  { intros q i Hq' Hqp ->.
    destruct (wf_dense _ _ Hwf _ _ Hq') as (_ & ? & ? & ?). congruence. }
  assert (∀ q i, vec_at (pool_indices s) q = Some i →
                 q ≠ vec_size (pool_indices s) - 1 → i ≠ m) as Hnm.
  { intros q i Hq' Hqp ->.
    destruct (wf_dense _ _ Hwf _ _ Hq') as (_ & ? & ? & ?). congruence. }
  split; [|split_and!; eauto; try lia].
  - split.
    + lia.
    + lia.
    + simpl. split; [done|]. eexists. split; [done|]. simpl.
      apply chain_to_index; [|lia].
      eapply chain_frame; [apply Hwf|].
      intros i Hi. rewrite Hro by (by intros ->).
      rewrite decide_False; [done|]. by intros ->.
    + apply NoDup_cons. split; [done|apply Hwf].
    + pose proof (wf_count _ _ Hwf). simpl length. lia.
    + intros j ej Hj. destruct (decide (j = index h)) as [->|Hjh].
      * rewrite Hrh in Hj. injection Hj as <-. split; simpl.
        -- apply to_index_range.
        -- apply to_generation_range.
      * rewrite Hro in Hj by done. case_decide.
        -- injection Hj as <-. destruct (wf_typed _ _ Hwf _ _ Hem) as [_ ?].
           split; simpl; [lia|done].
        -- by eapply wf_typed.
    + intros q i Hq'. pose proof (vec_at_Some_lt _ _ _ Hq') as Hqrange.
      rewrite Hpio in Hq' by lia. case_decide as Hqp.
      * injection Hq' as <-. subst q.
        assert (m ≠ index h) as Hmh by (eapply Hne; [exact Hm|lia]).
        split; [by intros [?|?]%elem_of_cons|].
        rewrite Hro, decide_True by done. eexists. split; [done|]. done.
      * destruct (wf_dense _ _ Hwf _ _ Hq') as (Hif & ei & Hei & Hie).
        assert (i ≠ index h) by eauto.
        assert (i ≠ m) by (eapply Hnm; [done|lia]).
        split; [by intros [?|?]%elem_of_cons|].
        rewrite Hro, decide_False by done. eauto.
    + intros i Hi. rewrite Hrsz in Hi.
      destruct (decide (i = index h)) as [->|Hih]; [by left; left|].
      destruct (wf_slots _ _ Hwf _ Hi) as [?|[q Hq']]; [by left; right|].
      right. pose proof (vec_at_Some_lt _ _ _ Hq') as Hqrange.
      assert (q ≠ p) by (intros ->; congruence).
      destruct (decide (q = vec_size (pool_indices s) - 1)) as [->|Hql].
      * exists p. rewrite Hpio, decide_True by lia. congruence.
      * exists q. rewrite Hpio, decide_False by lia. done.
  - intros j ej Hjh Hjf Hj.
    pose proof (vec_at_Some_lt _ _ _ Hj) as Hjrange.
    destruct (wf_slots _ _ Hwf _ Hjrange) as [?|[q Hq']]; [done|].
    destruct (wf_dense _ _ Hwf _ _ Hq') as (_ & ej' & Hej' & Hjq).
    assert (ej' = ej) as -> by congruence.
    pose proof (vec_at_Some_lt _ _ _ Hq') as Hqrange.
    assert (q ≠ p) by (intros ->; congruence).
    rewrite Hro by done. case_decide as Hjm.
    * subst j. assert (ej = em) as -> by congruence.
      assert (q = vec_size (pool_indices s) - 1) as -> by congruence.
      eexists. split; [done|]. simpl. split; [done|]. split; [lia|].
      rewrite Hpo, decide_True by lia. rewrite Hlast, <- Hsz. done.
    * assert (q ≠ vec_size (pool_indices s) - 1) by (intros ->; congruence).
      exists ej. split; [done|]. split; [done|]. rewrite Hjq. split; [lia|].
      rewrite Hpo, decide_False by lia. done.
Qed.

End invariant.

(** ** Histories *)

Section histories.
Context `{L : HandleLayout} {T : Type}.
Implicit Types (s : ObjectPool T) (h e : Handle) (v : T) (o : op T).

Lemma step_emplace v s s' :
  step (Emplace v) s = Some s' ↔ ∃ h, emplace v s = Some (h, s').
Proof.
  simpl. rewrite fmap_Some. split.
  - intros ([h s0] & ? & ->). eauto.
  - intros [h ?]. by exists (h, s').
Qed.

Lemma step_observer o s s' :
  (∀ v, o ≠ Emplace v) → (∀ h, o ≠ Remove h) → step o s = Some s' → s' = s.
Proof.
  intros Hne Hnr. destruct o as [v|h|h|i|h]; simpl;
    [by destruct (Hne v)|by destruct (Hnr h)|..];
    intros (? & _ & [= ->])%bind_Some; done.
Qed.

Lemma run_app ops1 ops2 s :
  run (ops1 ++ ops2) s = run ops1 s ≫= run ops2.
Proof.
  revert s. induction ops1 as [|o ops1 IH]; intros s; simpl; [done|].
  destruct (step o s); simpl; [apply IH|done].
Qed.

(** An invariant of single calls is an invariant of histories. *)
Lemma run_invariant (P : ObjectPool T → Prop) ops s s' :
  (∀ o s s', P s → step o s = Some s' → P s') →
  P s → run ops s = Some s' → P s'.
Proof.
  intros Hstep. revert s. induction ops as [|o ops IH]; intros s HP; simpl.
  - by intros [= <-].
  - intros (s1 & Hs1 & Hrun)%bind_Some. eauto.
Qed.

Lemma step_nonneg o s s' : nonneg s → step o s = Some s' → nonneg s'.
Proof.
  intros Hs Hstep. destruct o as [v|h|h|i|h];
    [| |apply step_observer in Hstep; [by subst|done..]..];
    destruct Hs as [Hffi Hr].
  - apply step_emplace in Hstep as [h Hemp].
    apply emplace_inv in Hemp
      as (r0 & ri & e & Hcase & He & -> & Hffi' & Hrsz & Hri & Hother & _ & _).
    assert (∀ j ej, vec_at r0 j = Some ej → 0 ≤ index ej) as Hr0.
    { intros j ej Hj. destruct Hcase as [(_ & -> & _)|(_ & -> & _)]; [|eauto].
      apply vec_at_snoc_inv in Hj as [?|[_ ->]]; [eauto|]. apply to_index_range. }
    split.
    + rewrite Hffi'. eauto.
    + intros j ej Hj. destruct (decide (j = ri)) as [->|Hne].
      * rewrite Hri in Hj. injection Hj as <-. apply to_index_range.
      * rewrite Hother in Hj by done. eauto.
  - simpl in Hstep. destruct (isValid s h) eqn:Hv.
    + destruct (remove_inv _ _ _ Hv Hstep)
        as (e & m & em & x & m' & He & _ & _ & _ & _ & _ & _ & _ & _ &
            Hffi' & _ & Hrh & Hro & _).
      split.
      * rewrite Hffi'. apply vec_at_Some_lt in He. lia.
      * intros j ej Hj. destruct (decide (j = index h)) as [->|Hne].
        -- rewrite Hrh in Hj. injection Hj as <-. apply to_index_range.
        -- rewrite Hro in Hj by done. case_decide; [|eauto].
           injection Hj as <-. apply to_index_range.
    + rewrite remove_invalid in Hstep by done. by injection Hstep as <-.
Qed.

Lemma reachable_nonneg s : reachable s → nonneg s.
Proof.
  intros [ops Hrun]. eapply (run_invariant nonneg); [apply step_nonneg| |done].
  split; [done|]. intros i e Hi%vec_at_Some_lt. unfold vec_size in Hi. simpl in Hi. lia.
Qed.


Lemma regular_wf s : regular s → ∃ fl, wf s fl.
Proof.
  induction 1 as [|s o s' _ [fl Hwf] Htame Hstep]; [exists []; apply wf_empty|].
  destruct o as [v|h|h|i|h];
    [| |apply step_observer in Hstep; [subst; eauto|done..]..].
  - apply step_emplace in Hstep as [h Hemp].
    destruct (emplace_wf _ _ _ _ _ Hwf Htame Hemp) as (fl' & ? & _). eauto.
  - simpl in *. destruct (isValid s h) eqn:Hv.
    + destruct (Htame eq_refl) as [_ Hfree].
      rewrite (wf_free_slots _ _ Hwf) in Hfree.
      destruct (remove_wf _ _ _ Hwf Hv Hfree) as (s'' & Hrem & ? & _).
      assert (s'' = s') as -> by congruence. eauto.
    + rewrite remove_invalid in Hstep by done. injection Hstep as <-. eauto.
Qed.

End histories.

(** ** The claims that hold in every state *)

Section unconditional.
Context `{L : HandleLayout} {T : Type}.
Implicit Types (s : ObjectPool T) (h e : Handle) (v : T) (o : op T).

Lemma run_tame_regular ops s s' :
  regular s → run_tame ops s = Some s' → regular s'.
Proof.
  revert s. induction ops as [|o ops IH]; intros s Hs; simpl.
  - by intros [= <-].
  - case_bool_decide as Ht; [|done].
    intros (s1 & Hs1 & Hrun)%bind_Some. eapply IH; [|done]. by econstructor.
Qed.



(** A handle is invalid after its own removal. *)
Lemma remove_then_invalid s h s' :
  isValid s h = true → remove h s = Some s' →
  ∃ e, vec_at (roster s') (index h) = Some e ∧
       generation e = to_generation (generation h + 1) ∧
       isValid s' h = false.
Proof.
  intros Hv Hrem.
  destruct (remove_inv _ _ _ Hv Hrem)
    as (e & m & em & x & m' & He & Hg & _ & _ & _ & _ & _ & _ & _ & _ & _ & Hrh & _).
  eexists. split; [done|]. simpl. rewrite Hg. split; [done|].
  eapply isValid_false; [done|]. simpl. rewrite Hg. apply to_generation_succ_ne.
Qed.

(** C7.  Removing a handle that [isValid] rejects, whether its generation
    is stale or its index lies outside the roster, completes and leaves the
    whole state (free-list head, roster, dense storage, back-mapping) as it
    was. *)
Theorem remove_invalid_handle_is_noop s h :
  isValid s h = false → remove h s = Some s.
Proof. apply remove_invalid. Qed.

Lemma remove_twice s h s1 : remove h s = Some s1 → remove h s1 = Some s1.
Proof.
  intros Hrem. destruct (isValid s h) eqn:Hv.
  - destruct (remove_then_invalid _ _ _ Hv Hrem) as (_ & _ & _ & ?).
    by apply remove_invalid.
  - rewrite remove_invalid in Hrem by done. injection Hrem as <-.
    by apply remove_invalid.
Qed.

Lemma remove_completes s h :
  regular s → tame s (Remove h) → ∃ s1, remove h s = Some s1 ∧ regular s1.
Proof.
  intros Hs Ht. destruct (isValid s h) eqn:Hv.
  - destruct (regular_wf _ Hs) as [fl Hwf].
    destruct (Ht Hv) as [_ Hfree]. rewrite (wf_free_slots _ _ Hwf) in Hfree.
    destruct (remove_wf _ _ _ Hwf Hv Hfree) as (s1 & Hrem & _).
    exists s1. split; [done|]. by eapply (regular_step s (Remove h)).
  - exists s. split; [by apply remove_invalid|done].
Qed.

(** C8.  Idempotent removal: [remove h] twice in a row is [remove h] once,
    in every state and for every handle; the second call changes nothing.
    The first call completes whenever [h] is invalid or names an occupied
    slot of a regular state. *)
Theorem remove_is_idempotent s h :
  remove h s ≫= remove h = remove h s ∧
  (∀ s1, remove h s = Some s1 → remove h s1 = Some s1) ∧
  (regular s → tame s (Remove h) → ∃ s1, remove h s = Some s1).
Proof.
  split_and!.
  - destruct (remove h s) as [s1|] eqn:Hrem; [|done]. simpl.
    by eapply remove_twice.
  - apply remove_twice.
  - intros Hs Ht. destruct (remove_completes s h Hs Ht) as (s1 & ? & _). eauto.
Qed.

End unconditional.

(** ** Generations along a history *)

Section generations.
Context `{L : HandleLayout} {T : Type}.
Implicit Types (s : ObjectPool T) (h e : Handle) (v : T) (o : op T).

Lemma removals_at_nonneg i (ops : list (op T)) : 0 ≤ removals_at i ops.
Proof.
  induction ops as [|[v|h|h|j|h] ops IH]; simpl; try lia.
  case_bool_decide; lia.
Qed.

(** A call keeps every slot and changes the generation of none, except
    that [remove h] may add one to the generation of slot [index h]. *)
Lemma step_generation o s s' i e :
  step o s = Some s' → vec_at (roster s) i = Some e →
  ∃ e', vec_at (roster s') i = Some e' ∧
    (generation e' = generation e ∨
     (removals_at i [o] = 1 ∧
      generation e' = to_generation (generation e + 1))).
Proof.
  intros Hstep He. destruct o as [v|h|h|j|h];
    [| |apply step_observer in Hstep; [subst; eauto|done..]..].
  - apply step_emplace in Hstep as [h Hemp].
    apply emplace_inv in Hemp
      as (r0 & ri & e0 & Hcase & He0 & -> & _ & _ & Hri & Hother & _ & _).
    assert (vec_at r0 i = Some e) as Hr0.
    { destruct Hcase as [(_ & -> & _)|(_ & -> & _)]; [by apply vec_at_app_l|done]. }
    destruct (decide (i = ri)) as [->|Hne].
    + assert (e0 = e) as -> by congruence. eexists. split; [done|]. by left.
    + exists e. rewrite Hother by done. eauto.
  - simpl in Hstep. destruct (isValid s h) eqn:Hv.
    + destruct (remove_inv _ _ _ Hv Hstep)
        as (e0 & m & em & x & m' & He0 & _ & _ & Hem & _ & _ & _ & _ & _ &
            _ & _ & Hrh & Hro & _).
      destruct (decide (i = index h)) as [->|Hne].
      * assert (e0 = e) as -> by congruence. eexists. split; [done|].
        right. simpl. rewrite bool_decide_true by done. done.
      * rewrite Hro by done. case_decide as Him.
        -- subst i. assert (em = e) as -> by congruence.
           eexists. split; [done|]. by left.
        -- eauto.
    + rewrite remove_invalid in Hstep by done. injection Hstep as <-. eauto.
Qed.

Lemma run_generation ops s s' i e :
  run ops s = Some s' → vec_at (roster s) i = Some e →
  ∃ e', vec_at (roster s') i = Some e' ∧
    (generation e' = generation e ∨
     ∃ k, 0 < k ≤ removals_at i ops ∧
          generation e' = to_generation (generation e + k)).
Proof.
  revert s e. induction ops as [|o ops IH]; intros s e; simpl run.
  - intros [= <-] He. eauto.
  - intros (s1 & Hs1 & Hrun)%bind_Some He.
    destruct (step_generation _ _ _ _ _ Hs1 He) as (e1 & He1 & Hg1).
    destruct (IH _ _ Hrun He1) as (e' & He' & Hg').
    exists e'. split; [done|].
    pose proof (removals_at_nonneg i ops).
    assert (removals_at i (o :: ops) = removals_at i [o] + removals_at i ops) as ->.
    { destruct o; simpl; lia. }
    pose proof (removals_at_nonneg i [o]).
    destruct Hg1 as [Hg1|[Ho Hg1]], Hg' as [Hg'|(k & Hk & Hg')].
    + left. congruence.
    + right. exists k. split; [lia|congruence].
    + right. exists 1. split; [lia|congruence].
    + right. exists (1 + k). split; [lia|].
      rewrite Hg', Hg1, to_generation_idemp. f_equal. lia.
Qed.

Lemma access_invalid s h : isValid s h = false → access s h = Some None.
Proof. intros H. unfold access. by rewrite H. Qed.


(** C10, amended.  After [remove h] of a valid handle, the next [emplace]
    completes and returns the slot of [h] with the generation of [h] plus
    one in the arithmetic of the generation field: a generation that
    differs from the one of [h], is greater unless [h] carries the largest
    generation, and is [0] in that case.  The old handle stays invalid. *)
Theorem freed_slot_is_reused_first s h s1 v :
  typed_handle h → isValid s h = true → remove h s = Some s1 →
  ∃ h' s2, emplace v s1 = Some (h', s2) ∧
    index h' = index h ∧
    generation h' = to_generation (generation h + 1) ∧
    generation h' ≠ generation h ∧
    (generation h < generation_max → generation h < generation h') ∧
    (generation h = generation_max → generation h' = 0) ∧
    isValid s2 h = false.
Proof.
  intros [Hi Hg] Hv Hrem.
  destruct (remove_then_invalid _ _ _ Hv Hrem) as (e1 & He1 & Hg1 & _).
  destruct (remove_inv _ _ _ Hv Hrem)
    as (e0 & m & em & x & m' & _ & _ & _ & _ & _ & _ & _ & _ & _ & Hffi & _).
  destruct (emplace_Some v s1) as (h' & s2 & Hemp); [lia|].
  exists h', s2. split; [done|].
  apply emplace_inv in Hemp
    as (r0 & ri & e & Hcase & He & -> & _ & _ & Hri & _).
  apply vec_at_Some_lt in He1 as Hlt.
  destruct Hcase as [(? & _ & _)|(_ & -> & ->)]; [lia|].
  rewrite Hffi in *. assert (e = e1) as -> by congruence.
  simpl. rewrite to_index_small by done. rewrite Hg1.
  split_and!; try done.
  - apply to_generation_succ_ne.
  - intros ?. rewrite to_generation_succ; lia.
  - intros ->. unfold to_generation, generation_max.
    replace (2 ^ generation_bits - 1 + 1) with (2 ^ generation_bits) by lia.
    apply Z.mod_same. pose proof generation_mod_gt_1. lia.
  - eapply isValid_false; [done|]. simpl. rewrite Hg1. apply to_generation_succ_ne.
Qed.

End generations.

(** ** Regular states: handles that refer to stored objects *)

Section regular_states.
Context `{L : HandleLayout} {T : Type}.
Implicit Types (s : ObjectPool T) (h e : Handle) (v : T) (o : op T).

Lemma occupied_wf s fl i :
  wf s fl → occupied s i ↔ 0 ≤ i < vec_size (roster s) ∧ i ∉ fl.
Proof. intros Hwf. unfold occupied. by rewrite (wf_free_slots _ _ Hwf). Qed.

Lemma access_Some s h e x :
  vec_at (roster s) (index h) = Some e → generation e = generation h →
  vec_at (pool s) (index e) = Some x → access s h = Some (Some x).
Proof.
  intros He Hg Hx. unfold access.
  rewrite (proj2 (isValid_true s h)) by eauto.
  rewrite He. simpl. apply vec_at_Some_lt in Hx as Hlt.
  rewrite bool_decide_true by lia. simpl. by rewrite Hx.
Qed.

(** The slot of a live handle points into the dense storage, at a position
    that the back-mapping sends back to the slot. *)
Lemma live_slot s fl h :
  wf s fl → live s h →
  ∃ e x, vec_at (roster s) (index h) = Some e ∧
         generation e = generation h ∧
         0 ≤ index e < vec_size (pool s) ∧
         vec_at (pool_indices s) (index e) = Some (index h) ∧
         vec_at (pool s) (index e) = Some x ∧
         access s h = Some (Some x).
Proof.
  intros Hwf [Hv Hocc]. apply (occupied_wf _ _ _ Hwf) in Hocc as [Hrange Hfree].
  apply isValid_true in Hv as (e & He & Hg).
  destruct (wf_slots _ _ Hwf _ Hrange) as [?|[p Hp]]; [done|].
  destruct (wf_dense _ _ Hwf _ _ Hp) as (_ & e' & He' & <-).
  assert (e' = e) as -> by congruence.
  apply vec_at_Some_lt in Hp as Hlt. rewrite <- (wf_sizes _ _ Hwf) in Hlt.
  destruct (vec_at_lt (pool s) (index e) Hlt) as [x Hx].
  exists e, x. split_and!; try done; try lia. by eapply access_Some.
Qed.


Lemma remove_frame s fl h2 :
  wf s fl → live s h2 →
  ∃ s', remove h2 s = Some s' ∧ wf s' (index h2 :: fl) ∧
        isValid s' h2 = false ∧
        ∀ h1, live s h1 → index h1 ≠ index h2 →
              live s' h1 ∧ access s' h1 = access s h1.
Proof.
  intros Hwf [Hv2 [_ Hfree2]%(occupied_wf _ _ _ Hwf)].
  destruct (remove_wf _ _ _ Hwf Hv2 Hfree2)
    as (s' & Hrem & Hwf' & Hrsz & _ & _ & Hframe).
  exists s'. split_and!; try done.
  - by destruct (remove_then_invalid _ _ _ Hv2 Hrem) as (_ & _ & _ & ?).
  - intros h1 Hlive Hne.
    destruct (live_slot _ _ _ Hwf Hlive) as (e1 & x & He1 & Hg1 & _ & _ & Hx & Hacc).
    destruct Hlive as [_ [Hr1 Hfree1]%(occupied_wf _ _ _ Hwf)].
    destruct (Hframe _ _ Hne Hfree1 He1) as (e1' & He1' & Hg1' & _ & Hx').
    split_and!; [split|].
    + apply isValid_true. exists e1'. split; [done|congruence].
    + apply (occupied_wf _ _ _ Hwf'). split; [lia|].
      by intros [?|?]%elem_of_cons.
    + rewrite Hacc. eapply access_Some; [done|congruence|congruence].
Qed.






End regular_states.

(** ** The structure of regular states *)

Section structure.
Context `{L : HandleLayout} {T : Type}.
Implicit Types (s : ObjectPool T) (h e : Handle) (v : T) (o : op T).





(** A regular state is within the capacity of the index field. *)
Lemma regular_within_capacity s :
  regular s →
  vec_size (roster s) ≤ index_max ∧ vec_size (pool s) ≤ index_max.
Proof.
  intros [fl Hwf]%regular_wf.
  pose proof (wf_capacity _ _ Hwf). pose proof (wf_pool_le_roster _ _ Hwf). lia.
Qed.

(** Out of the bounds of the dense storage, [makeHandle] returns the
    default handle, which is invalid in every regular state. *)
Lemma makeHandle_out_of_bounds s i :
  vec_size (pool s) ≤ i →
  makeHandle s i = Some Handle_default ∧
  (regular s → isValid s Handle_default = false).
Proof.
  intros Hi. split.
  - unfold makeHandle. by rewrite bool_decide_true.
  - intros [Hcap _]%regular_within_capacity.
    unfold isValid. simpl. by rewrite bool_decide_false by lia.
Qed.


End structure.

(** ** The generation counter wraps around *)

Section wrap_around.
Context `{L : HandleLayout} {T : Type}.
Implicit Types (s : ObjectPool T) (h e : Handle) (v : T) (o : op T).

Lemma run_app_Some (ops1 ops2 : list (op T)) s s1 s2 :
  run ops1 s = Some s1 → run ops2 s1 = Some s2 → run (ops1 ++ ops2) s = Some s2.
Proof. intros H1 H2. by rewrite run_app, H1. Qed.

Lemma to_index_0 : to_index 0 = 0.
Proof. apply to_index_small. pose proof index_max_nonneg. lia. Qed.

Lemma emplace_spent v g : emplace v (spent g) = Some (mkHandle 0 g, single v g).
Proof.
  unfold emplace, spent, single, Handle_new. simpl.
  unfold vec_update. simpl. by rewrite to_index_0.
Qed.

Lemma remove_single v g :
  remove (mkHandle 0 g) (single v g) = Some (spent (to_generation (g + 1))).
Proof.
  unfold remove, isValid, single, spent. simpl.
  rewrite bool_decide_true by done. simpl.
  unfold vec_update. simpl. rewrite to_index_0. simpl.
  rewrite to_index_small; [done|]. pose proof index_max_nonneg. lia.
Qed.

(** [n] rounds of insertion and removal add [n] to the generation of the
    slot, in the arithmetic of the generation field. *)
Lemma recycle_run v n g :
  0 ≤ g ≤ generation_max →
  run (recycle v n g) (spent g) = Some (spent (to_generation (g + Z.of_nat n))).
Proof.
  revert g. induction n as [|n IH]; intros g Hg.
  - simpl. rewrite Z.add_0_r. unfold to_generation, generation_max in *.
    rewrite Z.mod_small by lia. done.
  - change (recycle v (S n) g)
      with ([Emplace v; Remove (mkHandle 0 g)] ++ recycle v n (to_generation (g + 1))).
    eapply run_app_Some.
    + cbn [run step]. rewrite emplace_spent.
      cbn [fmap option_fmap option_map mbind option_bind snd].
      by rewrite remove_single.
    + rewrite IH by apply to_generation_range.
      rewrite to_generation_idemp. do 3 f_equal. lia.
Qed.

End wrap_around.

(** ** Examples on 16-bit handles *)

Lemma two_of_four_regular : regular two_of_four_state.
Proof.
  apply (run_tame_regular two_of_four empty_pool); [constructor|].
  vm_compute. reflexivity.
Qed.

Lemma single_regular v : regular (single (T:=Z) v 0).
Proof.
  apply (run_tame_regular [Emplace v] empty_pool); [constructor|].
  vm_compute. reflexivity.
Qed.

(** C3.  [makeHandle] builds its handle from the dense position where the
    roster index of the owning slot belongs.  After inserting [10] and [20]
    and removing the first, position [0] holds [20], which handle [(1, 0)]
    refers to; [makeHandle 0] returns [(0, 0)], the handle of the removed
    object, which is invalid. *)
Theorem makeHandle_takes_position_for_slot :
  let s := {| first_free_index := 0;
              roster := [mkHandle 65535 1; mkHandle 0 0];
              pool := [20];
              pool_indices := [1] |} in
  run_tame [Emplace 10; Emplace 20; Remove (mkHandle 0 0)] empty_pool = Some s ∧
  vec_at (pool s) 0 = Some 20 ∧
  access s (mkHandle 1 0) = Some (Some 20) ∧
  makeHandle s 0 = Some (mkHandle 0 0) ∧
  isValid s (mkHandle 0 0) = false ∧
  access s (mkHandle 0 0) = Some None.
Proof. vm_compute. repeat split; reflexivity. Qed.

(** The handle that [makeHandle] returns can also be valid and refer to
    another object: here position [0] holds [5] and [makeHandle 0] is the
    handle of [6]. *)
Lemma makeHandle_other_object :
  let s := {| first_free_index := 65535;
              roster := [mkHandle 3 1; mkHandle 1 0; mkHandle 2 0; mkHandle 0 1];
              pool := [5; 2; 3; 6];
              pool_indices := [3; 1; 2; 0] |} in
  run_tame [Emplace 1; Emplace 2; Emplace 3; Emplace 4; Remove (mkHandle 3 0);
            Emplace 5; Remove (mkHandle 0 0); Emplace 6] empty_pool = Some s ∧
  vec_at (pool s) 0 = Some 5 ∧
  makeHandle s 0 = Some (mkHandle 0 1) ∧
  access s (mkHandle 0 1) = Some (Some 6).
Proof. vm_compute. repeat split; reflexivity. Qed.


(** C10, counterexample.  When the slot has reached the largest generation,
    the handle returned after [remove] has generation [0], which is not
    greater. *)
Lemma reused_generation_not_greater :
  let h := mkHandle 0 65535 in
  let s := single 2 65535 in
  reachable s ∧ isValid s h = true ∧
  ∃ s1 h' s2, remove h s = Some s1 ∧ emplace 3 s1 = Some (h', s2) ∧
    index h' = index h ∧ generation h' = 0 ∧
    ¬ generation h < generation h'.
Proof.
  intros h s. split; [|split; [reflexivity|]].
  - exists ([Emplace 1; Remove (mkHandle 0 0)] ++
            recycle 0 (Z.to_nat 65534) 1 ++ [Emplace 2]).
    apply (run_app_Some _ _ _ (spent 1)); [reflexivity|].
    apply (run_app_Some _ _ _ (spent 65535)).
    + rewrite recycle_run by (vm_compute; split; discriminate).
      rewrite Z2Nat.id by lia. reflexivity.
    + reflexivity.
  - exists (spent 0), (mkHandle 0 0), (single 3 0).
    repeat split; try reflexivity. simpl. lia.
Qed.





(** ** The theorems at work on concrete pools *)






Lemma remove_invalid_handle_is_noop_witness :
  isValid two_of_four_state (mkHandle 0 0) = false ∧
  remove (mkHandle 0 0) two_of_four_state = Some two_of_four_state.
Proof.
  assert (isValid two_of_four_state (mkHandle 0 0) = false) as Hv by reflexivity.
  exact (conj Hv (remove_invalid_handle_is_noop two_of_four_state _ Hv)).
Defined.

Lemma remove_is_idempotent_witness :
  remove (mkHandle 3 0) two_of_four_state ≫= remove (mkHandle 3 0)
  = remove (mkHandle 3 0) two_of_four_state.
Proof.
  exact (proj1 (remove_is_idempotent two_of_four_state (mkHandle 3 0))).
Defined.


Lemma freed_slot_is_reused_first_witness :
  typed_handle (mkHandle 0 0) ∧
  isValid (single 1 0) (mkHandle 0 0) = true ∧
  remove (mkHandle 0 0) (single 1 0) = Some (spent 1) ∧
  ∃ h' s2, emplace 2 (spent 1) = Some (h', s2) ∧
    index h' = 0 ∧ generation h' = to_generation (0 + 1) ∧
    generation h' ≠ 0 ∧
    (0 < generation_max → 0 < generation h') ∧
    (0 = generation_max → generation h' = 0) ∧
    isValid s2 (mkHandle 0 0) = false.
Proof.
  assert (typed_handle (mkHandle 0 0)) as Ht
    by (vm_compute; repeat split; discriminate).
  assert (isValid (single 1 0) (mkHandle 0 0) = true) as Hv by reflexivity.
  assert (remove (mkHandle 0 0) (single 1 0) = Some (spent 1)) as Hrem
    by reflexivity.
  exact (conj Ht (conj Hv (conj Hrem
           (freed_slot_is_reused_first (single 1 0) (mkHandle 0 0) (spent 1) 2
              Ht Hv Hrem)))).
Defined.

(** ** Further properties of the calls *)

Section further.
Context `{L : HandleLayout} {T : Type}.
Implicit Types (s : ObjectPool T) (h e : Handle) (v : T) (o : op T).

(** X1.  The pool built by the constructor holds nothing: every handle is
    invalid, [operator[]] returns the null pointer, [getPoolIndex] returns
    [SIZE_MAX], [remove] changes nothing and [makeHandle] returns the
    default handle for every position. *)
Theorem empty_pool_has_no_objects h i :
  isValid (empty_pool (T:=T)) h = false ∧
  access (empty_pool (T:=T)) h = Some None ∧
  getPoolIndex (empty_pool (T:=T)) h = Some SIZE_MAX ∧
  remove h (empty_pool (T:=T)) = Some empty_pool ∧
  (0 ≤ i → makeHandle (empty_pool (T:=T)) i = Some Handle_default).
Proof.
  assert (isValid (empty_pool (T:=T)) h = false) as Hv.
  { apply not_true_is_false. intros (e & He%vec_at_Some_lt & _)%isValid_true.
    unfold vec_size in He. simpl in He. lia. }
  split_and!; [done|by apply access_invalid| |by apply remove_invalid|].
  - unfold getPoolIndex. by rewrite Hv.
  - intros Hi. unfold makeHandle. by rewrite bool_decide_true.
Qed.

(** X2.  Past the end of the dense storage [makeHandle] returns the default
    handle, and in a regular state that handle is invalid: its index, the
    largest value of the index type, is no roster position. *)
Theorem makeHandle_past_the_end s i :
  regular s → vec_size (pool s) ≤ i →
  makeHandle s i = Some Handle_default ∧
  isValid s Handle_default = false ∧
  access s Handle_default = Some None.
Proof.
  intros Hs Hi. destruct (makeHandle_out_of_bounds s i Hi) as [Hm Hinv].
  split_and!; [done|by apply Hinv|by apply access_invalid, Hinv].
Qed.

(** X3.  Within the dense storage of a regular state [makeHandle] reads
    inside both vectors and returns the position [i] paired with the
    generation of the slot that owns the object at [i].  When that slot is
    slot [i] itself, the result is the live handle of the object at [i]. *)
Theorem makeHandle_in_bounds s i :
  regular s → 0 ≤ i < vec_size (pool s) →
  ∃ ri e, vec_at (pool_indices s) i = Some ri ∧
          vec_at (roster s) ri = Some e ∧
          occupied s ri ∧
          makeHandle s i = Some (mkHandle i (generation e)) ∧
          (ri = i → live s (mkHandle i (generation e)) ∧
                    access s (mkHandle i (generation e))
                      = Some (vec_at (pool s) i)).
Proof.
  intros Hs Hi. destruct (regular_wf _ Hs) as [fl Hwf].
  pose proof (wf_sizes _ _ Hwf) as Hsz.
  destruct (vec_at_lt (pool_indices s) i) as [ri Hri]; [lia|].
  destruct (wf_dense _ _ Hwf _ _ Hri) as (Hfree & e & He & Hie).
  apply vec_at_Some_lt in He as Hrange.
  assert (occupied s ri) as Hocc by (by apply (occupied_wf _ _ _ Hwf)).
  exists ri, e. split_and!; try done.
  - unfold makeHandle. rewrite bool_decide_false by lia.
    rewrite Hri. simpl. rewrite He. simpl. unfold Handle_new.
    rewrite to_index_small; [done|].
    pose proof (wf_pool_le_roster _ _ Hwf). pose proof (wf_capacity _ _ Hwf). lia.
  - intros ->. destruct (vec_at_lt (pool s) i Hi) as [x Hx].
    assert (live s (mkHandle i (generation e))) as Hlive.
    { split; [|done]. apply isValid_true. eauto. }
    split; [done|]. rewrite Hx. eapply access_Some; simpl; [done..|].
    by rewrite Hie.
Qed.

(** X4.  [emplace] runs to completion in every state a client can reach,
    whatever calls led there: it reads and writes inside the roster,
    appends the value at the end of the dense storage, records the slot it
    took (the head of the free list when that is a roster position, a new
    slot at the end of the roster otherwise) at the end of the back-mapping,
    and grows the roster by at most one slot. *)
Theorem emplace_always_completes s v :
  reachable s →
  ∃ h s', emplace v s = Some (h, s') ∧
    pool s' = pool s ++ [v] ∧
    pool_indices s' =
      pool_indices s ++
        [if bool_decide (first_free_index s < vec_size (roster s))
         then first_free_index s else vec_size (roster s)] ∧
    vec_size (roster s) ≤ vec_size (roster s') ≤ vec_size (roster s) + 1.
Proof.
  intros [Hffi _]%reachable_nonneg.
  destruct (emplace_Some v s Hffi) as (h & s' & Hemp).
  exists h, s'. split; [done|].
  apply emplace_inv in Hemp
    as (r0 & ri & e & Hcase & _ & _ & _ & Hrsz & _ & _ & Hpool & Hpi).
  rewrite Hpool, Hpi, Hrsz.
  destruct Hcase as [(? & -> & ->)|(? & -> & ->)].
  - rewrite bool_decide_false by lia. rewrite vec_size_snoc. split_and!; [done..|lia|lia].
  - rewrite bool_decide_true by lia. split_and!; [done..|lia|lia].
Qed.

(** X5.  In a regular state a tame [emplace] reuses the head of the free
    list and leaves the size of the roster alone whenever the head is a
    roster position; only otherwise, and then the free list is empty, does
    it add a slot, with generation [0].  Either way the handle it returns
    is below the largest index, so it is never the default handle's index,
    and [getPoolIndex] maps it to the last dense position. *)
Theorem emplace_reuses_before_growing s v h s' :
  regular s → tame s (Emplace v) → emplace v s = Some (h, s') →
  typed_handle h ∧ index h < index_max ∧
  getPoolIndex s' h = Some (vec_size (pool s)) ∧
  (first_free_index s < vec_size (roster s) →
     index h = first_free_index s ∧
     vec_size (roster s') = vec_size (roster s)) ∧
  (vec_size (roster s) ≤ first_free_index s →
     free_slots s = [] ∧ index h = vec_size (roster s) ∧ generation h = 0 ∧
     vec_size (roster s') = vec_size (roster s) + 1).
Proof.
  intros Hs Ht Hemp. destruct (regular_wf _ Hs) as [fl Hwf].
  pose proof (wf_capacity _ _ Hwf) as Hcap.
  destruct (emplace_wf _ _ _ _ _ Hwf Ht Hemp)
    as (fl' & Hwf' & Hfl & Hrange & Hslot & _ & _ & _ & _).
  pose proof (wf_capacity _ _ Hwf') as Hcap'.
  destruct (wf_typed _ _ Hwf' _ _ Hslot) as [_ Hg]. simpl in Hg.
  assert (getPoolIndex s' h = Some (vec_size (pool s))) as Hgpi.
  { unfold getPoolIndex.
    rewrite (proj2 (isValid_true s' h)) by (eexists; split; [done|done]).
    by rewrite Hslot. }
  apply emplace_inv in Hemp
    as (r0 & ri & e & Hcase & He & Hh & _ & Hrsz & _).
  split_and!; [split; [lia|done]|lia|done|..].
  - intros Hfree. destruct Hcase as [(? & _ & _)|(_ & -> & ->)]; [lia|].
    split; [|done]. rewrite Hh. simpl. apply to_index_small.
    apply vec_at_Some_lt in He. lia.
  - intros Hfull. destruct Hcase as [(_ & -> & ->)|(? & _ & _)]; [|lia].
    destruct (chain_empty _ _ _ (wf_chain _ _ Hwf) Hcap Hfull) as [-> _].
    rewrite vec_at_snoc in He. injection He as <-.
    rewrite (wf_free_slots _ _ Hwf), Hh, Hrsz, vec_size_snoc. simpl.
    split_and!; try done. apply to_index_small. unfold vec_size in *. lia.
Qed.

Lemma getPoolIndex_valid s h e :
  vec_at (roster s) (index h) = Some e → generation e = generation h →
  getPoolIndex s h = Some (index e).
Proof.
  intros He Hg. unfold getPoolIndex.
  rewrite (proj2 (isValid_true s h)) by eauto. by rewrite He.
Qed.

(** X6.  Swap and pop: removing a live handle whose object is at dense
    position [p] completes, shortens the dense storage and the back-mapping
    by one and leaves the roster at its size; afterwards position [p] holds
    the object that was last and every other remaining position holds what
    it held before. *)
Theorem remove_moves_last_into_place s h :
  regular s → live s h →
  ∃ p last s',
    getPoolIndex s h = Some p ∧
    vec_at (pool s) (vec_size (pool s) - 1) = Some last ∧
    remove h s = Some s' ∧
    vec_size (pool s') = vec_size (pool s) - 1 ∧
    vec_size (pool_indices s') = vec_size (pool s') ∧
    vec_size (roster s') = vec_size (roster s) ∧
    ∀ j, 0 ≤ j < vec_size (pool s') →
         vec_at (pool s') j =
           if decide (j = p) then Some last else vec_at (pool s) j.
Proof.
  intros Hs Hlive. destruct (regular_wf _ Hs) as [fl Hwf].
  destruct (live_slot _ _ _ Hwf Hlive) as (e & x & He & Hg & Hp & _ & _ & _).
  destruct (remove_frame _ _ _ Hwf Hlive) as (s' & Hrem & Hwf' & _ & _).
  destruct Hlive as [Hv _].
  destruct (remove_inv _ _ _ Hv Hrem)
    as (e0 & m & em & last & m' & He0 & _ & _ & _ & Hq & Hlast & _ & _ & _ &
        _ & Hrsz & _ & _ & Hpsz & Hpo & _).
  assert (e0 = e) as -> by congruence.
  pose proof (wf_pool_le_roster _ _ Hwf). pose proof (wf_capacity _ _ Hwf).
  pose proof index_max_le_SIZE_MAX.
  rewrite to_size_t_small in Hq by lia. rewrite Hq in Hlast.
  exists (index e), last, s'. split_and!; try done.
  - by apply getPoolIndex_valid.
  - symmetry. apply Hwf'.
  - intros j Hj. apply Hpo. lia.
Qed.

(** X7.  In a regular state every dense position is referred to by exactly
    one live handle: the roster index that the back-mapping gives for the
    position, with the generation of that slot.  [getPoolIndex] maps it to
    the position and [operator[]] returns the object there. *)
Theorem dense_position_has_one_live_handle s p :
  regular s → 0 ≤ p < vec_size (pool s) →
  ∃ ri e, vec_at (pool_indices s) p = Some ri ∧
          vec_at (roster s) ri = Some e ∧
          live s (mkHandle ri (generation e)) ∧
          getPoolIndex s (mkHandle ri (generation e)) = Some p ∧
          access s (mkHandle ri (generation e)) = Some (vec_at (pool s) p) ∧
          ∀ h', live s h' → getPoolIndex s h' = Some p →
                h' = mkHandle ri (generation e).
Proof.
  intros Hs Hp. destruct (regular_wf _ Hs) as [fl Hwf].
  pose proof (wf_sizes _ _ Hwf) as Hsz.
  destruct (vec_at_lt (pool_indices s) p) as [ri Hri]; [lia|].
  destruct (wf_dense _ _ Hwf _ _ Hri) as (Hfree & e & He & Hie).
  apply vec_at_Some_lt in He as Hrange.
  destruct (vec_at_lt (pool s) p Hp) as [x Hx].
  exists ri, e. split_and!; try done.
  - split; [apply isValid_true; eauto|by apply (occupied_wf _ _ _ Hwf)].
  - rewrite <- Hie. by apply getPoolIndex_valid.
  - rewrite Hx. eapply access_Some; simpl; [done..|]. by rewrite Hie.
  - intros h' Hlive' Hgpi.
    destruct (live_slot _ _ _ Hwf Hlive') as (e' & _ & He' & Hg' & _ & Hback & _).
    rewrite (getPoolIndex_valid _ _ _ He' Hg') in Hgpi. injection Hgpi as Hpe.
    rewrite Hpe in Hback. assert (index h' = ri) as Hidx by congruence.
    rewrite Hidx in He'. assert (e' = e) as -> by congruence.
    destruct h' as [i' g']. simpl in *. by subst.
Qed.

(** X8.  The free list of a regular state: following the links from
    [first_free_index] visits each free slot once and ends at the
    end-of-list mark; the slots it visits are roster positions that own no
    dense position; together with the stored objects they account for the
    whole roster; and the list is empty exactly when [first_free_index] is
    no roster position, which is what [emplace] tests. *)
Theorem free_list_is_well_formed s :
  regular s →
  NoDup (free_slots s) ∧
  chain (roster s) (first_free_index s) (free_slots s) ∧
  (∀ i, i ∈ free_slots s →
        0 ≤ i < vec_size (roster s) ∧
        ∀ p, vec_at (pool_indices s) p ≠ Some i) ∧
  Z.of_nat (length (free_slots s)) + vec_size (pool s) = vec_size (roster s) ∧
  (free_slots s = [] ↔ vec_size (roster s) ≤ first_free_index s).
Proof.
  intros [fl Hwf]%regular_wf. rewrite (wf_free_slots _ _ Hwf).
  pose proof (wf_capacity _ _ Hwf) as Hcap.
  split_and!; try apply Hwf.
  - intros i Hi. split.
    + destruct (chain_at _ _ _ _ (wf_chain _ _ Hwf) Hi) as [e He].
      by eapply vec_at_Some_lt.
    + intros p Hp. by destruct (wf_dense _ _ Hwf _ _ Hp) as [? _].
  - split.
    + intros ->. pose proof (wf_chain _ _ Hwf) as Hs%sentinel_ge. lia.
    + intros Hfull.
      by destruct (chain_empty _ _ _ (wf_chain _ _ Hwf) Hcap Hfull).
Qed.

(** X9.  The free list is a stack: removing a live handle pushes its slot
    on the front of the list, and a tame [emplace] takes the front slot
    whenever the list is not empty, leaving the rest as it is. *)
Theorem free_list_is_a_stack s :
  regular s →
  (∀ h, live s h →
     ∃ s', remove h s = Some s' ∧ free_slots s' = index h :: free_slots s) ∧
  (∀ v h s', tame s (Emplace v) → emplace v s = Some (h, s') →
     free_slots s' = tail (free_slots s) ∧
     (free_slots s ≠ [] → head (free_slots s) = Some (index h))).
Proof.
  intros Hs. destruct (regular_wf _ Hs) as [fl Hwf].
  rewrite (wf_free_slots _ _ Hwf). split.
  - intros h Hlive.
    destruct (remove_frame _ _ _ Hwf Hlive) as (s' & Hrem & Hwf' & _).
    exists s'. split; [done|]. by apply wf_free_slots.
  - intros v h s' Ht Hemp.
    destruct (emplace_wf _ _ _ _ _ Hwf Ht Hemp) as (fl' & Hwf' & Hfl & _).
    rewrite (wf_free_slots _ _ Hwf').
    destruct Hfl as [->|(-> & -> & _)]; simpl; done.
Qed.

(** X10.  Handles persist, in any state: a handle that [isValid] accepts
    is still accepted after every history of calls that runs to completion
    and in which no [remove] names its slot; in particular no [emplace]
    invalidates a handle. *)
Theorem valid_handle_persists ops s s' h :
  run ops s = Some s' → removals_at (index h) ops = 0 →
  isValid s h = true → isValid s' h = true.
Proof.
  intros Hrun Hnone (e & He & Hg)%isValid_true.
  destruct (run_generation _ _ _ _ _ Hrun He) as (e' & He' & [Hg'|(k & Hk & _)]).
  - apply isValid_true. exists e'. split; [done|congruence].
  - lia.
Qed.

(** X11.  [remove] changes the validity of no handle of another slot, in
    any state: when the call completes, [isValid] gives the same answer
    before and after for every handle whose index differs from the one
    removed. *)
Theorem remove_keeps_other_slots s h2 s' h1 :
  remove h2 s = Some s' → index h1 ≠ index h2 →
  isValid s' h1 = isValid s h1.
Proof.
  intros Hrem Hne. destruct (isValid s h2) eqn:Hv2.
  - destruct (remove_inv _ _ _ Hv2 Hrem)
      as (e0 & m & em & x & m' & _ & _ & _ & Hem & _ & _ & _ & _ & _ &
          _ & Hrsz & _ & Hro & _).
    assert (∀ e, vec_at (roster s) (index h1) = Some e →
              ∃ e', vec_at (roster s') (index h1) = Some e' ∧
                    generation e' = generation e) as Hsame.
    { intros e He. rewrite Hro by done. case_decide as Hm; [|eauto].
      rewrite Hm in He. assert (em = e) as -> by congruence. eauto. }
    destruct (isValid s h1) eqn:Hv1.
    + apply isValid_true in Hv1 as (e & He & Hg).
      destruct (Hsame e He) as (e' & He' & Hg').
      apply isValid_true. exists e'. split; [done|congruence].
    + apply not_true_is_false. intros (e' & He' & Hg')%isValid_true.
      apply vec_at_Some_lt in He' as Hlt. rewrite Hrsz in Hlt.
      destruct (vec_at_lt (roster s) (index h1) Hlt) as [e He].
      destruct (Hsame e He) as (e'' & He'' & Hg'').
      assert (e'' = e') as -> by congruence.
      assert (isValid s h1 = true); [|congruence].
      apply isValid_true. exists e. split; [done|congruence].
  - rewrite remove_invalid in Hrem by done. by injection Hrem as <-.
Qed.

(** Overwriting position [p] with the last element and dropping the last
    position deletes the element at [p] and keeps all others. *)
Lemma swap_pop_Permutation {A} (l : list A) (p : nat) (x last : A) :
  l !! p = Some x → l !! pred (length l) = Some last →
  l ≡ₚ x :: take (pred (length l)) (<[p := last]> l).
Proof.
  intros Hp Hlast. apply lookup_lt_Some in Hp as Hlt.
  assert (l = take (pred (length l)) l ++ [last]) as Hl.
  { rewrite <- take_S_r by done. symmetry. apply take_ge. lia. }
  destruct (decide (p = pred (length l))) as [->|Hne].
  - assert (x = last) as -> by congruence.
    rewrite list_insert_id by done.
    rewrite Hl at 1. symmetry. apply Permutation_cons_append.
  - rewrite take_insert_lt by lia.
    set (k := take (pred (length l)) l) in *.
    assert (k !! p = Some x) as Hk by (unfold k; rewrite lookup_take_lt by lia; done).
    apply lookup_lt_Some in Hk as Hklt.
    rewrite Hl, insert_take_drop by done.
    rewrite <- (take_drop_middle k p x Hk) at 1.
    solve_Permutation.
Qed.

(** What [remove] leaves in the dense storage, in any state. *)
Lemma remove_pool s h s' :
  isValid s h = true → remove h s = Some s' →
  ∃ e last,
    vec_at (roster s) (index h) = Some e ∧
    vec_at (pool s) (to_size_t (vec_size (pool s) - 1)) = Some last ∧
    0 ≤ index e < vec_size (pool s) ∧
    pool s' = take (pred (length (pool s)))
                (<[Z.to_nat (index e) := last]> (pool s)).
Proof.
  intros Hv H. unfold remove in H. rewrite Hv in H. simpl in H.
  apply bind_Some in H as (e & He & H).
  apply bind_Some in H as (m & Hm & H).
  apply bind_Some in H as (em & Hem & H).
  apply bind_Some in H as ([] & Hassert & H).
  apply bind_Some in H as (r1 & Hr1 & H).
  apply bind_Some in H as (x & Hx & H).
  apply bind_Some in H as (p1 & Hp1 & H).
  apply bind_Some in H as (p2 & Hp2 & H).
  apply bind_Some in H as (m' & Hm' & H).
  apply bind_Some in H as (pi1 & Hpi1 & H).
  apply bind_Some in H as (pi2 & Hpi2 & H).
  apply bind_Some in H as (r2 & Hr2 & H).
  apply bind_Some in H as (r3 & Hr3 & H).
  injection H as <-. simpl.
  exists e, x. split; [done|]. split; [done|].
  unfold vec_set in Hp1. case_decide as Hrange; [|done]. injection Hp1 as <-.
  split; [done|].
  assert (p2 = take (pred (length (<[Z.to_nat (index e):=x]> (pool s))))
                 (<[Z.to_nat (index e):=x]> (pool s))) as ->.
  { unfold vec_pop_back in Hp2.
    destruct (<[Z.to_nat (index e):=x]> (pool s)); [done|]. by injection Hp2. }
  by rewrite length_insert.
Qed.

(** X12.  Removing a live handle deletes exactly its object: the call
    completes, and the dense storage before it is a permutation of the
    object that [operator[]] returned for the handle together with the
    dense storage after it. *)
Theorem remove_deletes_one_object s h :
  regular s → live s h →
  ∃ x s', access s h = Some (Some x) ∧ remove h s = Some s' ∧
          pool s ≡ₚ x :: pool s'.
Proof.
  intros Hs Hlive. destruct (regular_wf _ Hs) as [fl Hwf].
  destruct (live_slot _ _ _ Hwf Hlive) as (e & x & He & _ & Hp & _ & Hx & Hacc).
  destruct (remove_frame _ _ _ Hwf Hlive) as (s' & Hrem & _).
  destruct Hlive as [Hv _].
  destruct (remove_pool _ _ _ Hv Hrem) as (e0 & last & He0 & Hlast & _ & Hpool).
  assert (e0 = e) as -> by congruence.
  exists x, s'. split_and!; try done. rewrite Hpool.
  pose proof (wf_pool_le_roster _ _ Hwf). pose proof (wf_capacity _ _ Hwf).
  pose proof index_max_le_SIZE_MAX.
  rewrite to_size_t_small in Hlast by lia.
  apply swap_pop_Permutation.
  - unfold vec_at in Hx. by rewrite decide_True in Hx by lia.
  - unfold vec_at, vec_size in *. rewrite decide_True in Hlast by lia.
    by replace (pred (length (pool s)))
         with (Z.to_nat (Z.of_nat (length (pool s)) - 1)) by lia.
Qed.

(** The roster of a pool that has only seen insertions. *)
Lemma filled_roster_size (vs : list T) :
  vec_size (roster (filled vs)) = vec_size vs.
Proof.
  unfold vec_size. simpl. rewrite length_fmap, length_seqZ. unfold vec_size. lia.
Qed.

Lemma filled_emplace_le (vs : list T) v :
  vec_size vs ≤ index_max →
  emplace v (filled vs) = Some (mkHandle (vec_size vs) 0, filled (vs ++ [v])).
Proof.
  intros Hn. pose proof index_max_le_SIZE_MAX as Hmax.
  assert (0 ≤ vec_size vs) as Hn0 by (unfold vec_size; lia).
  pose proof (filled_roster_size vs) as Hsz.
  assert (vec_size vs ≤ first_free_index (filled vs) ∧
          is_sentinel (first_free_index (filled vs))) as [Hffi Hsent].
  { destruct vs; simpl; (split; [lia|]); [by left|by right]. }
  unfold emplace, expand_roster.
  rewrite bool_decide_true by lia. change (pool (filled vs)) with vs.
  change (pool_indices (filled vs)) with (seqZ 0 (vec_size vs)).
  cbn [mbind option_bind first_free_index roster pool pool_indices].
  rewrite bool_decide_true by (rewrite vec_size_snoc; lia).
  cbn [assert_ mbind option_bind first_free_index roster pool pool_indices].
  set (r := roster (filled vs)) in *.
  set (new := Handle_new (first_free_index (filled vs)) 0).
  assert (∀ y, vec_at (r ++ [y]) (vec_size vs) = Some y) as Hat
    by (intros; rewrite <- Hsz; apply vec_at_snoc).
  assert (∀ y y', vec_set (r ++ [y]) (vec_size vs) y' = Some (r ++ [y']))
    as Hset.
  { intros. rewrite vec_set_Some by (rewrite vec_size_snoc; lia). f_equal.
    rewrite <- Hsz. unfold vec_size. rewrite Nat2Z.id.
    rewrite insert_app_r_alt by lia. by rewrite Nat.sub_diag. }
  rewrite Hsz, Hat. cbn [mbind option_bind]. unfold vec_update. rewrite Hat.
  cbn [mbind option_bind]. rewrite Hset. cbn [mbind option_bind]. rewrite Hat.
  cbn [mbind option_bind]. unfold Handle_new, set_index, new. simpl.
  rewrite to_index_small by lia. rewrite to_index_sentinel by done.
  do 2 f_equal. unfold filled, r. simpl roster.
  assert (vec_size (vs ++ [v]) = Z.of_nat (S (length vs))) as ->
    by (rewrite vec_size_snoc; unfold vec_size; lia).
  rewrite seqZ_S, fmap_app. unfold vec_size. simpl.
  f_equal. by destruct vs.
Qed.

Lemma filled_emplace (vs : list T) v :
  vec_size vs < index_max →
  emplace v (filled vs) = Some (mkHandle (vec_size vs) 0, filled (vs ++ [v])).
Proof. intros Hn. apply filled_emplace_le. lia. Qed.

(** X13.  A pool that has only seen insertions, at most as many as the
    index field can tell apart: the [i]-th insertion returned the handle
    [(i, 0)], and for every position [makeHandle] returns exactly that
    handle, which [operator[]] and [getPoolIndex] map to the [i]-th value
    and to [i]. *)
Theorem insert_only_pool (vs : list T) :
  vec_size vs ≤ index_max →
  run (Emplace <$> vs) empty_pool = Some (filled vs) ∧
  (∀ v, vec_size vs < index_max →
        emplace v (filled vs)
          = Some (mkHandle (vec_size vs) 0, filled (vs ++ [v]))) ∧
  ∀ i x, vec_at vs i = Some x →
    makeHandle (filled vs) i = Some (mkHandle i 0) ∧
    access (filled vs) (mkHandle i 0) = Some (Some x) ∧
    getPoolIndex (filled vs) (mkHandle i 0) = Some i.
Proof.
  intros Hn. split_and!.
  - revert Hn. induction vs as [|v vs IH] using rev_ind; intros Hn; [done|].
    rewrite vec_size_snoc in Hn. rewrite fmap_app.
    eapply run_app_Some; [apply IH; lia|].
    simpl. rewrite filled_emplace by lia. done.
  - intros v. apply filled_emplace.
  - intros i x Hx. apply vec_at_Some_lt in Hx as Hi.
    assert (vec_at (roster (filled vs)) i = Some (mkHandle i 0)) as Hr.
    { unfold vec_at. rewrite decide_True by lia. simpl.
      rewrite list_lookup_fmap, lookup_seqZ_lt by lia. simpl.
      do 2 f_equal. lia. }
    assert (vec_at (pool_indices (filled vs)) i = Some i) as Hpi.
    { unfold vec_at. rewrite decide_True by lia. simpl.
      rewrite lookup_seqZ_lt by lia. f_equal. lia. }
    split_and!.
    + unfold makeHandle. simpl pool. rewrite bool_decide_false by lia.
      rewrite Hpi. cbn [mbind option_bind]. rewrite Hr. cbn [mbind option_bind].
      unfold Handle_new. simpl. by rewrite to_index_small by lia.
    + by apply (access_Some _ (mkHandle i 0) (mkHandle i 0)).
    + by apply (getPoolIndex_valid _ (mkHandle i 0) (mkHandle i 0)).
Qed.

(** X14.  [expand_roster], which [emplace] calls when [first_free_index] is
    no roster position: in a regular state whose roster can still grow, its
    [assert] holds, the dense storage and the back-mapping are untouched,
    and the result satisfies the representation invariant with a free list
    that consists of the new slot alone. *)
Theorem expand_roster_adds_one_free_slot s :
  regular s →
  vec_size (roster s) ≤ first_free_index s → vec_size (roster s) < index_max →
  ∃ s', expand_roster s = Some s' ∧
        wf s' [vec_size (roster s)] ∧
        free_slots s' = [vec_size (roster s)] ∧
        vec_size (roster s') = vec_size (roster s) + 1 ∧
        pool s' = pool s ∧ pool_indices s' = pool_indices s.
Proof.
  intros Hs Hfull Hroom. destruct (regular_wf _ Hs) as [fl Hwf].
  pose proof (wf_capacity _ _ Hwf) as Hcap.
  destruct (chain_empty _ _ _ (wf_chain _ _ Hwf) Hcap Hfull) as [-> Hsent].
  pose proof (wf_count _ _ Hwf) as Hcount. simpl in Hcount.
  assert (0 ≤ vec_size (roster s)) by (unfold vec_size; lia).
  unfold expand_roster. cbn [first_free_index roster].
  rewrite bool_decide_true by (rewrite vec_size_snoc; lia).
  eexists. split; [done|].
  match goal with |- wf ?s' _ ∧ _ => assert (wf s' [vec_size (roster s)]) as Hwf' end.
  { split; simpl.
    - apply Hwf.
    - rewrite vec_size_snoc. lia.
    - split; [done|]. eexists. split; [apply vec_at_snoc|]. simpl.
      rewrite to_index_sentinel by done. by right.
    - apply NoDup_singleton.
    - rewrite vec_size_snoc. lia.
    - intros i e [Hi|[_ ->]]%vec_at_snoc_inv; [by eapply wf_typed|].
      split; simpl; [apply to_index_range|].
      pose proof generation_mod_gt_1. unfold generation_max. lia.
    - intros p i Hp. destruct (wf_dense _ _ Hwf _ _ Hp) as (_ & e & He & Hie).
      split.
      + apply vec_at_Some_lt in He. intros ->%list_elem_of_singleton. lia.
      + exists e. split; [by apply vec_at_app_l|done].
    - intros i Hi. rewrite vec_size_snoc in Hi.
      destruct (decide (i = vec_size (roster s))) as [->|Hne].
      + left. by apply list_elem_of_singleton.
      + right. destruct (wf_slots _ _ Hwf i) as [Hin|?]; [lia|by inversion Hin|done]. }
  split_and!; [done|by apply wf_free_slots|simpl; by rewrite vec_size_snoc|done..].
Qed.

End further.

(** ** Beyond the capacity of the index field *)

Section beyond_capacity.
Context `{L : HandleLayout} {T : Type}.
Implicit Types (s : ObjectPool T) (h e : Handle) (v : T).




End beyond_capacity.

(** ** The further properties at work on concrete pools *)

Lemma two_of_four_live : live two_of_four_state (mkHandle 3 0).
Proof.
  split; [reflexivity|]. apply (bool_decide_unpack _). vm_compute. exact I.
Qed.

Lemma makeHandle_past_the_end_witness :
  regular two_of_four_state ∧ vec_size (pool two_of_four_state) ≤ 5 ∧
  makeHandle two_of_four_state 5 = Some Handle_default ∧
  isValid two_of_four_state Handle_default = false ∧
  access two_of_four_state Handle_default = Some None.
Proof.
  assert (vec_size (pool two_of_four_state) ≤ 5) as Hi
    by (vm_compute; discriminate).
  exact (conj two_of_four_regular (conj Hi
           (makeHandle_past_the_end two_of_four_state 5 two_of_four_regular Hi))).
Defined.

Lemma makeHandle_in_bounds_witness :
  regular (single 7 0) ∧ 0 ≤ 0 < vec_size (pool (single 7 0)) ∧
  ∃ ri e, vec_at (pool_indices (single 7 0)) 0 = Some ri ∧
          vec_at (roster (single 7 0)) ri = Some e ∧
          occupied (single 7 0) ri ∧
          makeHandle (single 7 0) 0 = Some (mkHandle 0 (generation e)) ∧
          (ri = 0 → live (single 7 0) (mkHandle 0 (generation e)) ∧
                    access (single 7 0) (mkHandle 0 (generation e))
                      = Some (vec_at (pool (single 7 0)) 0)).
Proof.
  assert (0 ≤ 0 < vec_size (pool (single 7 0))) as Hi
    by (vm_compute; split; [discriminate|reflexivity]).
  exact (conj (single_regular 7) (conj Hi
           (makeHandle_in_bounds (single 7 0) 0 (single_regular 7) Hi))).
Defined.

Lemma emplace_always_completes_witness :
  reachable two_of_four_state ∧
  ∃ h s', emplace 5 two_of_four_state = Some (h, s') ∧
    pool s' = pool two_of_four_state ++ [5] ∧
    pool_indices s' =
      pool_indices two_of_four_state ++
        [if bool_decide (first_free_index two_of_four_state
                         < vec_size (roster two_of_four_state))
         then first_free_index two_of_four_state
         else vec_size (roster two_of_four_state)] ∧
    vec_size (roster two_of_four_state) ≤ vec_size (roster s')
      ≤ vec_size (roster two_of_four_state) + 1.
Proof.
  assert (reachable two_of_four_state) as Hr
    by (exists two_of_four; vm_compute; reflexivity).
  exact (conj Hr (emplace_always_completes two_of_four_state 5 Hr)).
Defined.

Lemma emplace_reuses_before_growing_witness :
  let s' := {| first_free_index := 0;
               roster := [mkHandle 65535 1; mkHandle 2 1; mkHandle 1 0;
                          mkHandle 0 0];
               pool := [4; 3; 5];
               pool_indices := [3; 2; 1] |} in
  regular two_of_four_state ∧ tame two_of_four_state (Emplace 5) ∧
  emplace 5 two_of_four_state = Some (mkHandle 1 1, s') ∧
  index (mkHandle 1 1) = first_free_index two_of_four_state ∧
  vec_size (roster s') = vec_size (roster two_of_four_state).
Proof.
  intros s'.
  assert (tame two_of_four_state (Emplace 5)) as Ht
    by (left; vm_compute; reflexivity).
  assert (emplace 5 two_of_four_state = Some (mkHandle 1 1, s')) as He
    by reflexivity.
  assert (first_free_index two_of_four_state
          < vec_size (roster two_of_four_state)) as Hf by reflexivity.
  exact (conj two_of_four_regular (conj Ht (conj He
           (proj1 (proj2 (proj2 (proj2
              (emplace_reuses_before_growing two_of_four_state 5 _ _
                 two_of_four_regular Ht He)))) Hf)))).
Defined.

Lemma remove_moves_last_into_place_witness :
  regular two_of_four_state ∧ live two_of_four_state (mkHandle 3 0) ∧
  ∃ p last s',
    getPoolIndex two_of_four_state (mkHandle 3 0) = Some p ∧
    vec_at (pool two_of_four_state) (vec_size (pool two_of_four_state) - 1)
      = Some last ∧
    remove (mkHandle 3 0) two_of_four_state = Some s' ∧
    vec_size (pool s') = vec_size (pool two_of_four_state) - 1 ∧
    vec_size (pool_indices s') = vec_size (pool s') ∧
    vec_size (roster s') = vec_size (roster two_of_four_state) ∧
    ∀ j, 0 ≤ j < vec_size (pool s') →
         vec_at (pool s') j =
           if decide (j = p) then Some last
           else vec_at (pool two_of_four_state) j.
Proof.
  exact (conj two_of_four_regular (conj two_of_four_live
           (remove_moves_last_into_place two_of_four_state (mkHandle 3 0)
              two_of_four_regular two_of_four_live))).
Defined.

Lemma dense_position_has_one_live_handle_witness :
  regular two_of_four_state ∧ 0 ≤ 1 < vec_size (pool two_of_four_state) ∧
  ∃ ri e, vec_at (pool_indices two_of_four_state) 1 = Some ri ∧
          vec_at (roster two_of_four_state) ri = Some e ∧
          live two_of_four_state (mkHandle ri (generation e)) ∧
          getPoolIndex two_of_four_state (mkHandle ri (generation e)) = Some 1 ∧
          access two_of_four_state (mkHandle ri (generation e))
            = Some (vec_at (pool two_of_four_state) 1) ∧
          ∀ h', live two_of_four_state h' →
                getPoolIndex two_of_four_state h' = Some 1 →
                h' = mkHandle ri (generation e).
Proof.
  assert (0 ≤ 1 < vec_size (pool two_of_four_state)) as Hi
    by (vm_compute; split; [discriminate|reflexivity]).
  exact (conj two_of_four_regular (conj Hi
           (dense_position_has_one_live_handle two_of_four_state 1
              two_of_four_regular Hi))).
Defined.

Lemma free_list_is_well_formed_witness :
  regular two_of_four_state ∧
  NoDup (free_slots two_of_four_state) ∧
  chain (roster two_of_four_state) (first_free_index two_of_four_state)
    (free_slots two_of_four_state).
Proof.
  pose proof (free_list_is_well_formed two_of_four_state two_of_four_regular)
    as (Hnd & Hch & _).
  exact (conj two_of_four_regular (conj Hnd Hch)).
Defined.

Lemma free_list_is_a_stack_witness :
  regular two_of_four_state ∧
  ∀ h, live two_of_four_state h →
    ∃ s', remove h two_of_four_state = Some s' ∧
          free_slots s' = index h :: free_slots two_of_four_state.
Proof.
  exact (conj two_of_four_regular
           (proj1 (free_list_is_a_stack two_of_four_state two_of_four_regular))).
Defined.

Lemma valid_handle_persists_witness :
  let s' := {| first_free_index := 2;
               roster := [mkHandle 65535 1; mkHandle 1 1; mkHandle 0 1;
                          mkHandle 0 0];
               pool := [4; 9];
               pool_indices := [3; 1] |} in
  run [Emplace 9; Remove (mkHandle 2 0)] two_of_four_state = Some s' ∧
  removals_at 3 [Emplace 9; Remove (mkHandle 2 0)] = 0 ∧
  isValid two_of_four_state (mkHandle 3 0) = true ∧
  isValid s' (mkHandle 3 0) = true.
Proof.
  intros s'.
  assert (run [Emplace 9; Remove (mkHandle 2 0)] two_of_four_state = Some s')
    as Hrun by reflexivity.
  assert (removals_at (index (mkHandle 3 0))
            [Emplace (T:=Z) 9; Remove (mkHandle 2 0)] = 0) as Hnone
    by reflexivity.
  assert (isValid two_of_four_state (mkHandle 3 0) = true) as Hv by reflexivity.
  exact (conj Hrun (conj Hnone (conj Hv
           (valid_handle_persists _ _ _ (mkHandle 3 0) Hrun Hnone Hv)))).
Defined.

Lemma remove_keeps_other_slots_witness :
  let s' := {| first_free_index := 2;
               roster := [mkHandle 65535 1; mkHandle 0 1; mkHandle 1 1;
                          mkHandle 0 0];
               pool := [4];
               pool_indices := [3] |} in
  remove (mkHandle 2 0) two_of_four_state = Some s' ∧
  index (mkHandle 3 0) ≠ index (mkHandle 2 0) ∧
  isValid s' (mkHandle 3 0) = isValid two_of_four_state (mkHandle 3 0).
Proof.
  intros s'.
  assert (remove (mkHandle 2 0) two_of_four_state = Some s') as Hrem
    by reflexivity.
  assert (index (mkHandle 3 0) ≠ index (mkHandle 2 0)) as Hne
    by (simpl; discriminate).
  exact (conj Hrem (conj Hne
           (remove_keeps_other_slots _ _ _ (mkHandle 3 0) Hrem Hne))).
Defined.

Lemma remove_deletes_one_object_witness :
  regular two_of_four_state ∧ live two_of_four_state (mkHandle 3 0) ∧
  ∃ x s', access two_of_four_state (mkHandle 3 0) = Some (Some x) ∧
          remove (mkHandle 3 0) two_of_four_state = Some s' ∧
          pool two_of_four_state ≡ₚ x :: pool s'.
Proof.
  exact (conj two_of_four_regular (conj two_of_four_live
           (remove_deletes_one_object two_of_four_state (mkHandle 3 0)
              two_of_four_regular two_of_four_live))).
Defined.

Lemma insert_only_pool_witness :
  vec_size [10; 20; 30] ≤ index_max ∧
  run (Emplace <$> [10; 20; 30]) empty_pool = Some (filled [10; 20; 30]).
Proof.
  assert (vec_size [10; 20; 30] ≤ index_max) as Hn
    by (vm_compute; discriminate).
  exact (conj Hn (proj1 (insert_only_pool [10; 20; 30] Hn))).
Defined.

Lemma expand_roster_adds_one_free_slot_witness :
  regular (single 7 0) ∧
  vec_size (roster (single 7 0)) ≤ first_free_index (single 7 0) ∧
  vec_size (roster (single 7 0)) < index_max ∧
  ∃ s', expand_roster (single 7 0) = Some s' ∧
        wf s' [vec_size (roster (single 7 0))] ∧
        free_slots s' = [vec_size (roster (single 7 0))] ∧
        vec_size (roster s') = vec_size (roster (single 7 0)) + 1 ∧
        pool s' = pool (single 7 0) ∧
        pool_indices s' = pool_indices (single 7 0).
Proof.
  assert (vec_size (roster (single 7 0)) ≤ first_free_index (single 7 0))
    as Hfull by (vm_compute; discriminate).
  assert (vec_size (roster (single 7 0)) < index_max) as Hroom by reflexivity.
  exact (conj (single_regular 7) (conj Hfull (conj Hroom
           (expand_roster_adds_one_free_slot (single 7 0) (single_regular 7)
              Hfull Hroom)))).
Defined.

